(** * Plasma TypeScript SDK: the [AddLiquidity] instruction builder

    A shallow embedding of [generated/instructions/AddLiquidity.ts] and
    [generated/programId.ts], together with a model of the binary layout
    primitives ([@coral-xyz/borsh] over [buffer-layout]) and of the slice of
    the [Buffer] API the builder calls.

    Organisation:
    - bytes, buffers and the result type of throwing code;
    - the layout library: schemas, values, [serial], [encode], [decode];
    - the builder on values ([AddLiquidity]);
    - the builder on a store of objects ([Store.AddLiquidity]), which makes
      allocation, aliasing and in-place writes explicit;
    - the library's encoder as it treats a record that lacks a field
      ([Js.encode], [Js.AddLiquidity]);
    - the properties. *)

From Stdlib Require Import ZArith.
From Stdlib.Strings Require Import Byte.
From stdpp Require Import gmap strings list fin_maps.

Local Open Scope Z_scope.
Set Warnings "-register-all".

(* ===================================================================== *)
(** ** Results of code that may throw                                     *)
(* ===================================================================== *)

(** The exceptions that can escape the builder.  [RangeError] is what a
    [Buffer] write past the end raises; [EncodingError] and [DecodingError]
    are the layout library's local failures. *)
Inductive Error : Type :=
| EncodingError
| DecodingError
| RangeError
| TypeError.

Inductive Result (A : Type) : Type :=
| Ok (a : A)
| Throw (e : Error).
Arguments Ok {A} a.
Arguments Throw {A} e.

Definition rbind {A B : Type} (r : Result A) (k : A -> Result B) : Result B :=
  match r with
  | Ok a => k a
  | Throw e => Throw e
  end.

Notation "'let!' x ':=' r 'in' k" := (rbind r (fun x => k))
  (at level 10, x pattern, r at level 100, k at level 200, only parsing).

(* ===================================================================== *)
(** ** Bytes and buffers                                                  *)
(* ===================================================================== *)

Definition Buffer : Type := list byte.

Definition byte_of_Z (z : Z) : byte :=
  match Byte.of_N (Z.to_N (z mod 256)) with
  | Some b => b
  | None => x00
  end.

Definition Z_of_byte (b : byte) : Z := Z.of_N (Byte.to_N b).

(** [Buffer.alloc(n)]: [n] zero bytes. *)
Definition Buffer_alloc (n : nat) : Buffer := replicate n x00.

(** [Buffer.from([..])] on an array of small integers. *)
Definition Buffer_from (zs : list Z) : Buffer := map byte_of_Z zs.

(** [Buffer.concat(list)]. *)
Definition Buffer_concat (bs : list Buffer) : Buffer := concat bs.

(** [buf.slice(start, end)] for non-negative indices; both ends are clamped
    to the length of the buffer, as JavaScript does. *)
Definition Buffer_slice (b : Buffer) (start stop : nat) : Buffer :=
  take (stop - start)%nat (drop start b).

(** Code that writes into a buffer in place and may throw yields its result
    together with the buffer as the writes left it. *)
Definition then_ {A B : Type} (r : Result A * Buffer)
    (k : A -> Buffer -> Result B * Buffer) : Result B * Buffer :=
  match r with
  | (Ok a, b) => k a b
  | (Throw e, b) => (Throw e, b)
  end.

Notation "'let!' x '&' b ':=' r 'in' k" := (then_ r (fun x b => k))
  (at level 10, x pattern, b name, r at level 100, k at level 200, only parsing).

(** A bounds-checked write of [bs] at [off]: every [Buffer] write method the
    layout primitives use checks the range first and raises, writing
    nothing, when it leaves the buffer. *)
Definition Buffer_write (b : Buffer) (off : nat) (bs : list byte)
  : Result unit * Buffer :=
  if decide (off + length bs <= length b)%nat
  then (Ok tt, take off b ++ bs ++ drop (off + length bs)%nat b)
  else (Throw RangeError, b).

(** Modelled from the spec: a read of [n] bytes at [off] that fails with
    [DecodingError] when the buffer ends before them, as section 4.1 has
    [decode] fail on a truncated buffer.  (The integer reads of [Buffer]
    check their range in this way; [Buffer.slice], through which the library
    reads a byte array, clamps instead.) *)
Definition Buffer_read (b : Buffer) (off n : nat) : Result (list byte) :=
  if decide (off + n <= length b)%nat
  then Ok (take n (drop off b))
  else Throw DecodingError.

(** Little-endian digits: the [w] low bytes of [z]. *)
Fixpoint le_bytes (w : nat) (z : Z) : list byte :=
  match w with
  | O => []
  | S w' => byte_of_Z z :: le_bytes w' (z / 256)
  end.

Fixpoint le_value (bs : list byte) : Z :=
  match bs with
  | [] => 0
  | b :: bs' => Z_of_byte b + 256 * le_value bs'
  end.

(** [2^(8w)], the number of values of a [w]-byte integer. *)
Definition width_range (w : nat) : Z := 256 ^ Z.of_nat w.

(* --------------------------------------------------------------------- *)
(** *** Facts about bytes                                                 *)
(* --------------------------------------------------------------------- *)

Lemma Z_of_byte_range (b : byte) : 0 <= Z_of_byte b < 256.
Proof.
  unfold Z_of_byte. pose proof (Byte.to_N_bounded b) as H. lia.
Qed.

Lemma Z_of_byte_of_Z (z : Z) : Z_of_byte (byte_of_Z z) = z mod 256.
Proof.
  unfold byte_of_Z, Z_of_byte.
  pose proof (Z.mod_pos_bound z 256 ltac:(lia)) as Hr.
  destruct (Byte.of_N (Z.to_N (z mod 256))) as [b|] eqn:E.
  - apply Byte.to_of_N in E. rewrite E. lia.
  - apply Byte.of_N_None_iff in E. lia.
Qed.

Lemma byte_of_Z_of_byte (b : byte) : byte_of_Z (Z_of_byte b) = b.
Proof.
  unfold byte_of_Z, Z_of_byte.
  pose proof (Byte.to_N_bounded b) as H.
  rewrite Z.mod_small by lia. rewrite N2Z.id.
  by rewrite Byte.of_to_N.
Qed.

Lemma length_le_bytes (w : nat) (z : Z) : length (le_bytes w z) = w.
Proof. revert z. induction w as [|w IH]; intros z; simpl; [done|]. by rewrite IH. Qed.

Lemma width_range_pos (w : nat) : 0 < width_range w.
Proof. unfold width_range. apply Z.pow_pos_nonneg; lia. Qed.

Lemma width_range_S (w : nat) : width_range (S w) = 256 * width_range w.
Proof.
  unfold width_range. rewrite Nat2Z.inj_succ, Z.pow_succ_r by lia. done.
Qed.

Lemma le_value_le_bytes (w : nat) (z : Z) :
  0 <= z < width_range w -> le_value (le_bytes w z) = z.
Proof.
  revert z. induction w as [|w IH]; intros z Hz.
  - unfold width_range in Hz. simpl in *. lia.
  - rewrite width_range_S in Hz. simpl.
    rewrite Z_of_byte_of_Z, IH.
    + pose proof (Z.div_mod z 256 ltac:(lia)). lia.
    + split; [apply Z.div_pos; lia|].
      apply Z.div_lt_upper_bound; lia.
Qed.

Lemma le_value_range (bs : list byte) : 0 <= le_value bs < width_range (length bs).
Proof.
  induction bs as [|b bs IH].
  - unfold width_range. simpl. lia.
  - cbn [length le_value]. rewrite width_range_S.
    pose proof (Z_of_byte_range b). lia.
Qed.

Lemma le_bytes_le_value (bs : list byte) : le_bytes (length bs) (le_value bs) = bs.
Proof.
  induction bs as [|b bs IH]; [done|].
  cbn [length le_bytes le_value].
  pose proof (Z_of_byte_range b) as Hb.
  assert (Hd : (Z_of_byte b + 256 * le_value bs) / 256 = le_value bs).
  { rewrite Z.add_comm, Z.mul_comm, Z.div_add_l by lia.
    rewrite Z.div_small by lia. lia. }
  assert (Hm : byte_of_Z (Z_of_byte b + 256 * le_value bs) = b).
  { rewrite <- (byte_of_Z_of_byte b) at 2. unfold byte_of_Z.
    replace (Z_of_byte b + 256 * le_value bs) with (Z_of_byte b + le_value bs * 256) by lia.
    by rewrite Z.mod_add by lia. }
  by rewrite Hd, Hm, IH.
Qed.

(* ===================================================================== *)
(** ** The layout library                                                 *)
(* ===================================================================== *)

(** Modelled from the spec: the layout primitives of [@coral-xyz/borsh]
    (section 4.1, "Layout Library"); the package is a dependency and its
    sources are not among the files embedded here.  One constructor per
    primitive kind the section lists: unsigned and signed integers of a fixed
    width in bytes, booleans, fixed-length byte arrays, byte sequences with a
    length prefix, option-wrapped values with a presence tag, nested records
    and sequences of a sub-layout.  Multi-byte integers are little-endian and
    length prefixes are [u32], as section 6 fixes them. *)
Inductive Layout : Type :=
| LUInt (w : nat)
| LInt (w : nat)
| LBool
| LBlob (n : nat)
| LBytes
| LOption (l : Layout)
| LStruct (fields : list (string * Layout))
| LVec (l : Layout).

Definition u8 : Layout := LUInt 1.
Definition u32 : Layout := LUInt 4.
Definition u64 : Layout := LUInt 8.

(** The JavaScript values a layout consumes and produces: numbers (plain or
    [BN]), booleans, byte buffers, [null], plain objects and arrays.  An
    object lists its properties in insertion order. *)
Inductive Value : Type :=
| VNum (z : Z)
| VBool (b : bool)
| VBytes (bs : list byte)
| VNull
| VRecord (props : list (string * Value))
| VArray (items : list Value).

(** Property access [src[name]]. *)
Fixpoint prop (name : string) (props : list (string * Value)) : option Value :=
  match props with
  | [] => None
  | (k, v) :: rest => if decide (k = name) then Some v else prop name rest
  end.

Definition unsigned_ok (w : nat) (z : Z) : Prop := 0 <= z < width_range w.
Definition signed_ok (w : nat) (z : Z) : Prop :=
  - width_range w <= 2 * z < width_range w.
Definition count_ok (n : nat) : Prop := Z.of_nat n < width_range 4.

(** [fromTwos]: the signed reading of a [w]-byte unsigned value. *)
Definition from_twos (w : nat) (u : Z) : Z :=
  if decide (2 * u < width_range w) then u else u - width_range w.

Definition bool_byte (b : bool) : byte := if b then x01 else x00.

(** Modelled from the spec: "a ParameterRecord [conforms] exactly to a
    TypeSchema (no missing/extra fields)" and each field is within its
    primitive's range; the values a layout accepts. *)
Fixpoint accepts (l : Layout) (v : Value) : bool :=
  match l, v with
  | LUInt w, VNum z => bool_decide (unsigned_ok w z)
  | LInt w, VNum z => bool_decide (signed_ok w z)
  | LBool, VBool _ => true
  | LBlob n, VBytes bs => bool_decide (length bs = n)
  | LBytes, VBytes bs => bool_decide (count_ok (length bs))
  | LOption _, VNull => true
  | LOption l', _ => accepts l' v
  | LStruct fields, VRecord props =>
      bool_decide (props.*1 = fields.*1) && bool_decide (NoDup props.*1) &&
      (fix go (fs : list (string * Layout)) : bool :=
         match fs with
         | [] => true
         | (name, lf) :: fs' =>
             match prop name props with
             | Some fv => accepts lf fv && go fs'
             | None => false
             end
         end) fields
  | LVec l', VArray items =>
      bool_decide (count_ok (length items)) &&
      (fix go (vs : list Value) : bool :=
         match vs with
         | [] => true
         | x :: vs' => accepts l' x && go vs'
         end) items
  | _, _ => false
  end.

(** Modelled from the spec: [toBytes(record) -> bytes] of section 4.2, the
    canonical packed form: fields in declaration order, no padding. *)
Fixpoint serial (l : Layout) (v : Value) : Result (list byte) :=
  match l, v with
  | LUInt w, VNum z =>
      if decide (unsigned_ok w z) then Ok (le_bytes w z) else Throw EncodingError
  | LInt w, VNum z =>
      if decide (signed_ok w z) then Ok (le_bytes w (z mod width_range w))
      else Throw EncodingError
  | LBool, VBool b => Ok [bool_byte b]
  | LBlob n, VBytes bs =>
      if decide (length bs = n) then Ok bs else Throw EncodingError
  | LBytes, VBytes bs =>
      if decide (count_ok (length bs))
      then Ok (le_bytes 4 (Z.of_nat (length bs)) ++ bs)
      else Throw EncodingError
  | LOption _, VNull => Ok [x00]
  | LOption l', _ => let! bs := serial l' v in Ok (x01 :: bs)
  | LStruct fields, VRecord props =>
      (fix go (fs : list (string * Layout)) : Result (list byte) :=
         match fs with
         | [] => Ok []
         | (name, lf) :: fs' =>
             match prop name props with
             | Some fv =>
                 let! b1 := serial lf fv in
                 let! b2 := go fs' in
                 Ok (b1 ++ b2)
             | None => Throw EncodingError
             end
         end) fields
  | LVec l', VArray items =>
      if decide (count_ok (length items))
      then
        let! bs :=
          (fix go (vs : list Value) : Result (list byte) :=
             match vs with
             | [] => Ok []
             | x :: vs' =>
                 let! b1 := serial l' x in
                 let! b2 := go vs' in
                 Ok (b1 ++ b2)
             end) items in
        Ok (le_bytes 4 (Z.of_nat (length items)) ++ bs)
      else Throw EncodingError
  | _, _ => Throw EncodingError
  end.

(** Modelled from the spec: [encode(value, destinationBuffer, offset) ->
    bytesWritten] of section 4.1.  Each primitive writes its own bytes into
    the destination at the running offset; an incompatible value raises
    [EncodingError], a write past the end of the destination raises
    [RangeError].  The destination is written in place: the function yields
    the number of bytes written, or the error, together with the destination
    as the writes made so far left it.  A record that lacks a field of the
    schema is an incompatible value here, as the contract has it; the
    library itself skips such a field, which [Js.encode] below models. *)
Fixpoint encode (l : Layout) (v : Value) (b : Buffer) (off : nat)
  : Result nat * Buffer :=
  match l, v with
  | LUInt w, VNum z =>
      if decide (unsigned_ok w z)
      then let! _ & b' := Buffer_write b off (le_bytes w z) in (Ok w, b')
      else (Throw EncodingError, b)
  | LInt w, VNum z =>
      if decide (signed_ok w z)
      then let! _ & b' := Buffer_write b off (le_bytes w (z mod width_range w)) in
           (Ok w, b')
      else (Throw EncodingError, b)
  | LBool, VBool t =>
      let! _ & b' := Buffer_write b off [bool_byte t] in (Ok 1%nat, b')
  | LBlob n, VBytes bs =>
      if decide (length bs = n)
      then let! _ & b' := Buffer_write b off bs in (Ok n, b')
      else (Throw EncodingError, b)
  | LBytes, VBytes bs =>
      if decide (count_ok (length bs))
      then
        let! _ & b1 := Buffer_write b off (le_bytes 4 (Z.of_nat (length bs))) in
        let! _ & b2 := Buffer_write b1 (off + 4)%nat bs in
        (Ok (4 + length bs)%nat, b2)
      else (Throw EncodingError, b)
  | LOption _, VNull =>
      let! _ & b' := Buffer_write b off [x00] in (Ok 1%nat, b')
  | LOption l', _ =>
      let! _ & b1 := Buffer_write b off [x01] in
      let! n & b2 := encode l' v b1 (off + 1)%nat in
      (Ok (1 + n)%nat, b2)
  | LStruct fields, VRecord props =>
      (fix go (fs : list (string * Layout)) (b : Buffer) (off : nat)
         : Result nat * Buffer :=
         match fs with
         | [] => (Ok 0%nat, b)
         | (name, lf) :: fs' =>
             match prop name props with
             | Some fv =>
                 let! n1 & b1 := encode lf fv b off in
                 let! n2 & b2 := go fs' b1 (off + n1)%nat in
                 (Ok (n1 + n2)%nat, b2)
             | None => (Throw EncodingError, b)
             end
         end) fields b off
  | LVec l', VArray items =>
      if decide (count_ok (length items))
      then
        let! _ & b0 := Buffer_write b off (le_bytes 4 (Z.of_nat (length items))) in
        let! n & b' :=
          (fix go (vs : list Value) (b : Buffer) (off : nat)
             : Result nat * Buffer :=
             match vs with
             | [] => (Ok 0%nat, b)
             | x :: vs' =>
                 let! n1 & b1 := encode l' x b off in
                 let! n2 & b2 := go vs' b1 (off + n1)%nat in
                 (Ok (n1 + n2)%nat, b2)
             end) items b0 (off + 4)%nat in
        (Ok (4 + n)%nat, b')
      else (Throw EncodingError, b)
  | _, _ => (Throw EncodingError, b)
  end.

(** Modelled from the spec: [decode(sourceBuffer, offset) -> (value,
    bytesRead)] of section 4.1; a truncated buffer or an unknown tag byte
    raises [DecodingError]. *)
Fixpoint decode (l : Layout) (b : Buffer) (off : nat) : Result (Value * nat) :=
  match l with
  | LUInt w =>
      let! bs := Buffer_read b off w in Ok (VNum (le_value bs), w)
  | LInt w =>
      let! bs := Buffer_read b off w in Ok (VNum (from_twos w (le_value bs)), w)
  | LBool =>
      let! bs := Buffer_read b off 1 in
      match le_value bs with
      | 0 => Ok (VBool false, 1%nat)
      | 1 => Ok (VBool true, 1%nat)
      | _ => Throw DecodingError
      end
  | LBlob n =>
      let! bs := Buffer_read b off n in Ok (VBytes bs, n)
  | LBytes =>
      let! hd := Buffer_read b off 4 in
      let n := Z.to_nat (le_value hd) in
      let! bs := Buffer_read b (off + 4)%nat n in
      Ok (VBytes bs, (4 + n)%nat)
  | LOption l' =>
      let! tag := Buffer_read b off 1 in
      match le_value tag with
      | 0 => Ok (VNull, 1%nat)
      | 1 => let! (v, n) := decode l' b (off + 1)%nat in Ok (v, (1 + n)%nat)
      | _ => Throw DecodingError
      end
  | LStruct fields =>
      let! (props, n) :=
        (fix go (fs : list (string * Layout)) (off : nat)
           : Result (list (string * Value) * nat) :=
           match fs with
           | [] => Ok ([], 0%nat)
           | (name, lf) :: fs' =>
               let! (fv, n1) := decode lf b off in
               let! (rest, n2) := go fs' (off + n1)%nat in
               Ok ((name, fv) :: rest, (n1 + n2)%nat)
           end) fields off in
      Ok (VRecord props, n)
  | LVec l' =>
      let! hd := Buffer_read b off 4 in
      let! (items, n) :=
        (fix go (cnt : nat) (off : nat) : Result (list Value * nat) :=
           match cnt with
           | O => Ok ([], 0%nat)
           | S cnt' =>
               let! (x, n1) := decode l' b off in
               let! (rest, n2) := go cnt' (off + n1)%nat in
               Ok (x :: rest, (n1 + n2)%nat)
           end) (Z.to_nat (le_value hd)) (off + 4)%nat in
      Ok (VArray items, (4 + n)%nat)
  end.

(* --------------------------------------------------------------------- *)
(** *** The loops over fields and items, by name                          *)
(* --------------------------------------------------------------------- *)

Definition accepts_fields (props : list (string * Value)) :=
  fix go (fs : list (string * Layout)) : bool :=
    match fs with
    | [] => true
    | (name, lf) :: fs' =>
        match prop name props with
        | Some fv => accepts lf fv && go fs'
        | None => false
        end
    end.

Definition serial_fields (props : list (string * Value)) :=
  fix go (fs : list (string * Layout)) : Result (list byte) :=
    match fs with
    | [] => Ok []
    | (name, lf) :: fs' =>
        match prop name props with
        | Some fv =>
            let! b1 := serial lf fv in
            let! b2 := go fs' in
            Ok (b1 ++ b2)
        | None => Throw EncodingError
        end
    end.

Definition serial_items (l : Layout) :=
  fix go (vs : list Value) : Result (list byte) :=
    match vs with
    | [] => Ok []
    | x :: vs' =>
        let! b1 := serial l x in
        let! b2 := go vs' in
        Ok (b1 ++ b2)
    end.

Definition encode_fields (props : list (string * Value)) :=
  fix go (fs : list (string * Layout)) (b : Buffer) (off : nat)
    : Result nat * Buffer :=
    match fs with
    | [] => (Ok 0%nat, b)
    | (name, lf) :: fs' =>
        match prop name props with
        | Some fv =>
            let! n1 & b1 := encode lf fv b off in
            let! n2 & b2 := go fs' b1 (off + n1)%nat in
            (Ok (n1 + n2)%nat, b2)
        | None => (Throw EncodingError, b)
        end
    end.

Definition encode_items (l : Layout) :=
  fix go (vs : list Value) (b : Buffer) (off : nat) : Result nat * Buffer :=
    match vs with
    | [] => (Ok 0%nat, b)
    | x :: vs' =>
        let! n1 & b1 := encode l x b off in
        let! n2 & b2 := go vs' b1 (off + n1)%nat in
        (Ok (n1 + n2)%nat, b2)
    end.

Definition decode_fields (b : Buffer) :=
  fix go (fs : list (string * Layout)) (off : nat)
    : Result (list (string * Value) * nat) :=
    match fs with
    | [] => Ok ([], 0%nat)
    | (name, lf) :: fs' =>
        let! (fv, n1) := decode lf b off in
        let! (rest, n2) := go fs' (off + n1)%nat in
        Ok ((name, fv) :: rest, (n1 + n2)%nat)
    end.

Definition decode_items (l : Layout) (b : Buffer) :=
  fix go (cnt : nat) (off : nat) : Result (list Value * nat) :=
    match cnt with
    | O => Ok ([], 0%nat)
    | S cnt' =>
        let! (x, n1) := decode l b off in
        let! (rest, n2) := go cnt' (off + n1)%nat in
        Ok (x :: rest, (n1 + n2)%nat)
    end.

Lemma accepts_struct fields props :
  accepts (LStruct fields) (VRecord props) =
  bool_decide (props.*1 = fields.*1) && bool_decide (NoDup props.*1) &&
  accepts_fields props fields.
Proof. reflexivity. Qed.

Lemma serial_struct fields props :
  serial (LStruct fields) (VRecord props) = serial_fields props fields.
Proof. reflexivity. Qed.

Lemma encode_struct fields props b off :
  encode (LStruct fields) (VRecord props) b off = encode_fields props fields b off.
Proof. reflexivity. Qed.

Lemma decode_struct fields b off :
  decode (LStruct fields) b off =
  (let! (props, n) := decode_fields b fields off in Ok (VRecord props, n)).
Proof. reflexivity. Qed.

(** The bytes of [b] with [bs] written over them from [off] on. *)
Definition splice (b : Buffer) (off : nat) (bs : list byte) : Buffer :=
  take off b ++ bs ++ drop (off + length bs)%nat b.

Lemma length_splice b off bs :
  (off + length bs <= length b)%nat -> length (splice b off bs) = length b.
Proof.
  intros H. unfold splice. rewrite !length_app, length_take, length_drop. lia.
Qed.

Lemma splice_nil b off : splice b off [] = b.
Proof.
  unfold splice. simpl. rewrite Nat.add_0_r. apply take_drop.
Qed.

Lemma splice_splice b off bs1 bs2 :
  (off + length bs1 <= length b)%nat ->
  splice (splice b off bs1) (off + length bs1) bs2 = splice b off (bs1 ++ bs2).
Proof.
  intros H. unfold splice.
  rewrite length_app.
  assert (Hl : length (take off b) = off) by (rewrite length_take; lia).
  rewrite (app_assoc (take off b) bs1).
  rewrite take_app_length' by (rewrite length_app; lia).
  rewrite <- !app_assoc. f_equal. f_equal. f_equal.
  rewrite (app_assoc (take off b) bs1).
  rewrite drop_app_ge by (rewrite length_app; lia).
  rewrite length_app, Hl.
  rewrite drop_drop. f_equal. lia.
Qed.

Lemma Buffer_write_splice b off bs :
  Buffer_write b off bs =
  if decide (off + length bs <= length b)%nat then (Ok tt, splice b off bs)
  else (Throw RangeError, b).
Proof. reflexivity. Qed.

(* --------------------------------------------------------------------- *)
(** *** Induction on layouts, through the field lists                     *)
(* --------------------------------------------------------------------- *)

Section Layout_induction.
Variable P : Layout -> Prop.
Hypothesis HUInt : forall w, P (LUInt w).
Hypothesis HInt : forall w, P (LInt w).
Hypothesis HBool : P LBool.
Hypothesis HBlob : forall n, P (LBlob n).
Hypothesis HBytes : P LBytes.
Hypothesis HOption : forall l, P l -> P (LOption l).
Hypothesis HStruct : forall fs, Forall (fun nl => P nl.2) fs -> P (LStruct fs).
Hypothesis HVec : forall l, P l -> P (LVec l).

Fixpoint Layout_nested_ind (l : Layout) : P l :=
  match l with
  | LUInt w => HUInt w
  | LInt w => HInt w
  | LBool => HBool
  | LBlob n => HBlob n
  | LBytes => HBytes
  | LOption l' => HOption l' (Layout_nested_ind l')
  | LStruct fs =>
      HStruct fs
        ((fix go (fs : list (string * Layout)) : Forall (fun nl => P nl.2) fs :=
            match fs with
            | [] => List.Forall_nil _
            | (name, lf) :: fs' =>
                List.Forall_cons (fun nl => P nl.2) (name, lf) fs'
                  (Layout_nested_ind lf) (go fs')
            end) fs)
  | LVec l' => HVec l' (Layout_nested_ind l')
  end.
End Layout_induction.

(* --------------------------------------------------------------------- *)
(** *** [encode] writes exactly the bytes of [serial]                     *)
(* --------------------------------------------------------------------- *)

(** What [encode] does on destination [b] at [off], given what [serial]
    yields: the bytes are written in place when they fit, the write raises
    [RangeError] when they do not, and a value [serial] rejects is rejected. *)
Definition encode_outcome (b : Buffer) (off : nat)
    (r : Result (list byte)) (e : Result nat * Buffer) : Prop :=
  match r with
  | Ok bs =>
      if decide (off + length bs <= length b)%nat
      then e = (Ok (length bs), splice b off bs)
      else e.1 = Throw RangeError
  | Throw _ => exists err, e.1 = Throw err
  end.

Definition encode_refines (l : Layout) : Prop :=
  forall v b off, (off <= length b)%nat ->
    encode_outcome b off (serial l v) (encode l v b off).

Lemma encode_outcome_seq b off r1 e1 (k1 : list byte -> Result (list byte))
    (k2 : nat -> Buffer -> Result nat * Buffer) :
  encode_outcome b off r1 e1 ->
  (forall bs1, r1 = Ok bs1 -> (off + length bs1 <= length b)%nat ->
     encode_outcome b off (k1 bs1) (k2 (length bs1) (splice b off bs1))) ->
  (forall bs1 bs, r1 = Ok bs1 -> k1 bs1 = Ok bs ->
     (length bs1 <= length bs)%nat) ->
  encode_outcome b off (rbind r1 k1) (then_ e1 k2).
Proof.
  intros H1 Hk Hlen. destruct r1 as [bs1|err]; cbn [encode_outcome rbind] in *.
  - destruct (decide (off + length bs1 <= length b)%nat) as [Hfit|Hover].
    + subst e1. cbn [then_]. by apply Hk.
    + destruct e1 as [[n|e] b1]; cbn [fst] in H1; [done|]. injection H1 as ->.
      cbn [then_]. unfold encode_outcome.
      destruct (k1 bs1) as [bs|err] eqn:Ek; [|by eexists].
      specialize (Hlen bs1 bs eq_refl Ek).
      rewrite decide_False by lia. done.
  - destruct H1 as [err' H1]. destruct e1 as [[n|e] b1]; cbn [fst] in H1; [done|].
    cbn [then_]. by eexists.
Qed.

(** The outcome of a sequence whose first part wrote [bs1] and whose second
    part behaves as the outcome for [r2] from there on. *)
Lemma encode_outcome_app b off bs1 r2 e2 (f : nat -> nat) :
  (off + length bs1 <= length b)%nat ->
  encode_outcome (splice b off bs1) (off + length bs1) r2 e2 ->
  (forall n, f n = (length bs1 + n)%nat) ->
  encode_outcome b off (let! bs2 := r2 in Ok (bs1 ++ bs2))
    (let! n & b' := e2 in (Ok (f n), b')).
Proof.
  intros Hfit H2 Hf. destruct r2 as [bs2|err]; cbn [encode_outcome rbind] in *.
  - rewrite length_splice in H2 by done. rewrite length_app, Nat.add_assoc.
    destruct (decide (off + length bs1 + length bs2 <= length b)%nat) as [Hall|Hover].
    + subst e2. cbn [then_]. by rewrite Hf, splice_splice.
    + destruct e2 as [[m|e] b1]; cbn [fst] in H2; [done|]. by injection H2 as ->.
  - destruct H2 as [err' H2]. destruct e2 as [[m|e] b1]; cbn [fst] in H2; [done|].
    by eexists.
Qed.

Lemma encode_fields_refines props fs :
  Forall (fun nl => encode_refines nl.2) fs ->
  forall b off, (off <= length b)%nat ->
    encode_outcome b off (serial_fields props fs) (encode_fields props fs b off).
Proof.
  induction 1 as [|[name lf] fs Hlf _ IH]; intros b off Hoff.
  - cbn [serial_fields encode_fields encode_outcome length].
    rewrite decide_True by lia. by rewrite splice_nil.
  - cbn [serial_fields encode_fields].
    destruct (prop name props) as [fv|]; [|by eexists].
    apply encode_outcome_seq.
    + exact (Hlf fv b off Hoff).
    + intros bs1 _ Hfit.
      apply (encode_outcome_app b off bs1 _ _ (fun n => (length bs1 + n)%nat));
        [done| |done].
      apply IH. rewrite length_splice by done. lia.
    + intros bs1 bs _ Hk.
      destruct (serial_fields props fs) as [bs2|]; simpl in Hk; [|done].
      injection Hk as <-. rewrite length_app. lia.
Qed.

Lemma encode_items_refines l vs :
  encode_refines l ->
  forall b off, (off <= length b)%nat ->
    encode_outcome b off (serial_items l vs) (encode_items l vs b off).
Proof.
  intros Hl. induction vs as [|x vs IH]; intros b off Hoff.
  - cbn [serial_items encode_items encode_outcome length].
    rewrite decide_True by lia. by rewrite splice_nil.
  - cbn [serial_items encode_items]. apply encode_outcome_seq.
    + exact (Hl x b off Hoff).
    + intros bs1 _ Hfit.
      apply (encode_outcome_app b off bs1 _ _ (fun n => (length bs1 + n)%nat));
        [done| |done].
      apply IH. rewrite length_splice by done. lia.
    + intros bs1 bs _ Hk.
      destruct (serial_items l vs) as [bs2|]; simpl in Hk; [|done].
      injection Hk as <-. rewrite length_app. lia.
Qed.

(** A single write, seen as the outcome for the bytes it writes. *)
Lemma encode_write_outcome b off bs (k : Buffer -> Result nat * Buffer) :
  (forall b', (off + length bs <= length b)%nat ->
     k b' = (Ok (length bs), b')) ->
  encode_outcome b off (Ok bs) (let! _ & b' := Buffer_write b off bs in k b').
Proof.
  intros Hk. cbn [encode_outcome]. rewrite Buffer_write_splice.
  destruct (decide (off + length bs <= length b)%nat); cbn [then_ fst]; [|done].
  by apply Hk.
Qed.

(** A write of a header [hd] followed by a part that behaves as the outcome
    for [r2]. *)
Lemma encode_header_outcome b off hd r2 (e2 : Buffer -> Result nat * Buffer)
    (f : nat -> nat) :
  (off <= length b)%nat ->
  ((off + length hd <= length b)%nat ->
     encode_outcome (splice b off hd) (off + length hd) r2 (e2 (splice b off hd))) ->
  (forall n, f n = (length hd + n)%nat) ->
  encode_outcome b off (let! bs2 := r2 in Ok (hd ++ bs2))
    (let! _ & b1 := Buffer_write b off hd in
     let! n & b2 := e2 b1 in (Ok (f n), b2)).
Proof.
  intros Hoff H2 Hf. rewrite Buffer_write_splice.
  destruct (decide (off + length hd <= length b)%nat) as [Hfit|Hover]; cbn [then_].
  - by apply encode_outcome_app; [|apply H2|].
  - destruct r2 as [bs2|err]; cbn [encode_outcome rbind fst]; [|by eexists].
    rewrite length_app, decide_False by lia. done.
Qed.

Lemma encode_refines_all (l : Layout) : encode_refines l.
Proof.
  induction l as [w|w| |n| |l IH|fs IH|l IH] using Layout_nested_ind;
    intros v b off Hoff.
  - destruct v; try (by eexists). cbn [serial encode].
    destruct (decide (unsigned_ok w z)); [|by eexists].
    apply encode_write_outcome. intros b' _. by rewrite length_le_bytes.
  - destruct v; try (by eexists). cbn [serial encode].
    destruct (decide (signed_ok w z)); [|by eexists].
    apply encode_write_outcome. intros b' _. by rewrite length_le_bytes.
  - destruct v; try (by eexists). cbn [serial encode].
    by apply encode_write_outcome.
  - destruct v; try (by eexists). cbn [serial encode].
    destruct (decide (length bs = n)) as [<-|]; [|by eexists].
    by apply encode_write_outcome.
  - destruct v; try (by eexists). cbn [serial encode].
    destruct (decide (count_ok (length bs))); [|by eexists].
    unfold encode_outcome.
    rewrite Buffer_write_splice, length_app, !length_le_bytes.
    destruct (decide (off + 4 <= length b)%nat) as [H4|H4]; cbn [then_].
    + rewrite Buffer_write_splice, length_splice by (rewrite length_le_bytes; lia).
      rewrite Nat.add_assoc.
      destruct (decide (off + 4 + length bs <= length b)%nat); cbn [then_ fst];
        [|done].
      rewrite <- (splice_splice b off) by (rewrite length_le_bytes; lia).
      by rewrite length_le_bytes.
    + rewrite decide_False by lia. done.
  - assert (Hsome : encode_outcome b off
              (let! bs := serial l v in Ok (x01 :: bs))
              (let! _ & b1 := Buffer_write b off [x01] in
               let! n & b2 := encode l v b1 (off + 1)%nat in
               (Ok (1 + n)%nat, b2))).
    { apply (encode_header_outcome b off [x01] (serial l v)
               (fun b1 => encode l v b1 (off + 1)%nat) (fun n => (1 + n)%nat));
        [done| |done].
      intros Hfit. apply IH. rewrite length_splice by done. done. }
    destruct v; try exact Hsome.
    cbn [serial encode]. by apply encode_write_outcome.
  - destruct v; try (by eexists).
    rewrite serial_struct, encode_struct. by apply encode_fields_refines.
  - destruct v; try (by eexists). cbn [serial encode].
    destruct (decide (count_ok (length items))); [|by eexists].
    fold (serial_items l items). fold (encode_items l items).
    apply (encode_header_outcome b off (le_bytes 4 (Z.of_nat (length items)))
             (serial_items l items)
             (fun b1 => encode_items l items b1 (off + 4)%nat)
             (fun n => (4 + n)%nat)); [done| |by rewrite length_le_bytes].
    intros Hfit. rewrite length_le_bytes in Hfit |- *.
    apply encode_items_refines; [done|].
    rewrite length_splice by (by rewrite length_le_bytes). done.
Qed.

(* --------------------------------------------------------------------- *)
(** *** [decode] inverts [serial] on accepted values                      *)
(* --------------------------------------------------------------------- *)

Lemma Buffer_read_mid (pre bs post : list byte) :
  Buffer_read (pre ++ bs ++ post) (length pre) (length bs) = Ok bs.
Proof.
  unfold Buffer_read. rewrite decide_True by (rewrite !length_app; lia).
  by rewrite drop_app_length, take_app_length.
Qed.

Lemma Buffer_read_mid' (pre bs post : list byte) off n :
  off = length pre -> n = length bs ->
  Buffer_read (pre ++ bs ++ post) off n = Ok bs.
Proof. intros -> ->. apply Buffer_read_mid. Qed.

Lemma from_twos_mod (w : nat) (z : Z) :
  signed_ok w z -> from_twos w (z mod width_range w) = z.
Proof.
  unfold signed_ok, from_twos. intros Hz.
  pose proof (width_range_pos w) as HR.
  destruct (decide (0 <= z)) as [Hpos|Hneg].
  - rewrite Z.mod_small by lia. rewrite decide_True by lia. done.
  - assert (Hm : z mod width_range w = z + width_range w).
    { symmetry. apply (Z.mod_unique_pos _ _ (-1)); lia. }
    rewrite Hm. rewrite decide_False by lia. lia.
Qed.

Lemma le_value_mod_range (w : nat) (z : Z) :
  le_value (le_bytes w (z mod width_range w)) = z mod width_range w.
Proof.
  apply le_value_le_bytes. apply Z.mod_pos_bound, width_range_pos.
Qed.

(** [decode l] reads back, from any buffer that holds the bytes of an
    accepted value at the offset, that value and the number of its bytes. *)
Definition roundtrips (l : Layout) : Prop :=
  forall v, accepts l v = true ->
    exists bs, serial l v = Ok bs /\
      forall pre post,
        decode l (pre ++ bs ++ post) (length pre) = Ok (v, length bs).

Lemma roundtrips_fields props fs :
  Forall (fun nl => roundtrips nl.2) fs ->
  accepts_fields props fs = true ->
  exists bs, serial_fields props fs = Ok bs /\
    exists props',
      props'.*1 = fs.*1 /\
      Forall (fun kv => prop kv.1 props = Some kv.2) props' /\
      forall pre post,
        decode_fields (pre ++ bs ++ post) fs (length pre) =
        Ok (props', length bs).
Proof.
  induction 1 as [|[name lf] fs Hlf _ IH]; intros Hacc.
  - exists []. split; [done|]. exists []. by repeat split.
  - simpl in Hacc. simpl.
    destruct (prop name props) as [fv|] eqn:Ep; [|done].
    apply andb_true_iff in Hacc as [Hfv Hrest].
    destruct (Hlf fv Hfv) as (bs1 & E1 & Hd1). cbn [snd] in E1, Hd1.
    destruct (IH Hrest) as (bs2 & E2 & props' & Hnames & Hall & Hd2).
    fold (serial_fields props fs). fold (decode_fields).
    exists (bs1 ++ bs2). rewrite E1, E2. split; [done|].
    exists ((name, fv) :: props'). split; [by rewrite fmap_cons, Hnames|].
    split; [by constructor|].
    intros pre post. rewrite <- app_assoc, Hd1. cbn [rbind].
    specialize (Hd2 (pre ++ bs1) post).
    rewrite length_app, <- !app_assoc in Hd2. rewrite Hd2. cbn [rbind].
    by rewrite length_app.
Qed.

Lemma roundtrips_items l vs :
  roundtrips l ->
  forallb (accepts l) vs = true ->
  exists bs, serial_items l vs = Ok bs /\
    forall pre post,
      decode_items l (pre ++ bs ++ post) (length vs) (length pre) =
      Ok (vs, length bs).
Proof.
  intros Hl. induction vs as [|x vs IH]; intros Hacc.
  - exists []. by split.
  - simpl in Hacc. apply andb_true_iff in Hacc as [Hx Hrest].
    destruct (Hl x Hx) as (bs1 & E1 & Hd1).
    destruct (IH Hrest) as (bs2 & E2 & Hd2).
    exists (bs1 ++ bs2). simpl. rewrite E1, E2. split; [done|].
    intros pre post. rewrite <- app_assoc, Hd1. cbn [rbind].
    specialize (Hd2 (pre ++ bs1) post).
    rewrite length_app, <- !app_assoc in Hd2. rewrite Hd2. cbn [rbind].
    by rewrite length_app.
Qed.

Lemma prop_rebuild (props props' : list (string * Value)) :
  props.*1 = props'.*1 -> NoDup props.*1 ->
  Forall (fun kv => prop kv.1 props = Some kv.2) props' ->
  props' = props.
Proof.
  revert props'. induction props as [|[k v] ps IH]; intros props' Hn Hnd Hall.
  - destruct props'; [done|discriminate].
  - destruct props' as [|[k' v'] ps']; [discriminate|].
    rewrite !fmap_cons in Hn. simpl in Hn. injection Hn as <- Hn.
    rewrite fmap_cons in Hnd. apply NoDup_cons in Hnd as [Hk Hnd].
    apply Forall_cons in Hall as [Hhd Htl]. simpl in Hhd.
    rewrite decide_True in Hhd by done. injection Hhd as <-.
    f_equal. apply IH; [done|done|].
    rewrite Forall_forall in Htl |- *. intros [k' v'] Hin.
    specialize (Htl _ Hin). simpl in Htl |- *.
    destruct (decide (k = k')) as [<-|]; [|done].
    exfalso. apply Hk. simpl. rewrite Hn.
    apply list_elem_of_fmap. by exists (k, v').
Qed.

Lemma accepts_vec_items l items :
  accepts (LVec l) (VArray items) =
  bool_decide (count_ok (length items)) && forallb (accepts l) items.
Proof.
  reflexivity.
Qed.

Lemma roundtrips_all (l : Layout) : roundtrips l.
Proof.
  induction l as [w|w| |n| |l IH|fs IH|l IH] using Layout_nested_ind;
    intros v Hacc.
  - destruct v; try done. cbn [accepts] in Hacc. apply bool_decide_eq_true in Hacc.
    cbn [serial]. rewrite decide_True by done.
    eexists; split; [done|]. intros pre post. cbn [decode].
    rewrite (Buffer_read_mid' pre (le_bytes w z) post) by (by rewrite ?length_le_bytes).
    cbn [rbind]. by rewrite le_value_le_bytes, length_le_bytes.
  - destruct v; try done. cbn [accepts] in Hacc. apply bool_decide_eq_true in Hacc.
    cbn [serial]. rewrite decide_True by done.
    eexists; split; [done|]. intros pre post. cbn [decode].
    rewrite (Buffer_read_mid' pre (le_bytes w (z mod width_range w)) post)
      by (by rewrite ?length_le_bytes).
    cbn [rbind]. by rewrite le_value_mod_range, from_twos_mod, length_le_bytes.
  - destruct v; try done. cbn [serial].
    eexists; split; [done|]. intros pre post. cbn [decode].
    rewrite (Buffer_read_mid' pre [bool_byte b] post) by done.
    by destruct b.
  - destruct v; try done. cbn [accepts] in Hacc. apply bool_decide_eq_true in Hacc.
    cbn [serial]. rewrite decide_True by done.
    eexists; split; [done|]. intros pre post. cbn [decode].
    rewrite (Buffer_read_mid' pre bs post) by done.
    cbn [rbind]. by rewrite Hacc.
  - destruct v; try done. cbn [accepts] in Hacc. apply bool_decide_eq_true in Hacc.
    cbn [serial]. rewrite decide_True by done.
    eexists; split; [done|]. intros pre post. cbn [decode].
    rewrite <- (app_assoc (le_bytes _ _) bs post).
    rewrite (Buffer_read_mid' pre (le_bytes 4 (Z.of_nat (length bs))) (bs ++ post))
      by (by rewrite ?length_le_bytes).
    cbn [rbind]. rewrite le_value_le_bytes by (unfold count_ok in Hacc; lia). rewrite Nat2Z.id.
    rewrite (app_assoc pre).
    rewrite (Buffer_read_mid' (pre ++ le_bytes 4 (Z.of_nat (length bs))) bs post)
      by (by rewrite ?length_app, ?length_le_bytes).
    cbn [rbind]. by rewrite length_app, length_le_bytes.
  - assert (Hsome : accepts l v = true ->
              exists bs, (let! bs := serial l v in Ok (x01 :: bs)) = Ok bs /\
                forall pre post,
                  decode (LOption l) (pre ++ bs ++ post) (length pre) =
                  Ok (v, length bs)).
    { intros Hv. destruct (IH v Hv) as (bs & -> & Hd).
      exists (x01 :: bs). split; [done|]. intros pre post. cbn [decode].
      change (pre ++ (x01 :: bs) ++ post) with (pre ++ [x01] ++ (bs ++ post)).
      rewrite (Buffer_read_mid' pre [x01] (bs ++ post)) by done.
      cbn [rbind]. change (le_value [x01]) with 1.
      specialize (Hd (pre ++ [x01]) post).
      rewrite length_app, <- app_assoc in Hd. cbn [length] in Hd.
      rewrite Hd. done. }
    destruct v; try (by apply Hsome).
    exists [x00]. split; [done|]. intros pre post. cbn [decode].
    by rewrite (Buffer_read_mid' pre [x00] post).
  - destruct v; try done. rewrite accepts_struct in Hacc.
    apply andb_true_iff in Hacc as [Hacc Hfs].
    apply andb_true_iff in Hacc as [Hn Hnd].
    apply bool_decide_eq_true in Hn. apply bool_decide_eq_true in Hnd.
    destruct (roundtrips_fields props fs IH Hfs)
      as (bs & Es & props' & Hn' & Hall & Hd).
    exists bs. rewrite serial_struct. split; [done|].
    intros pre post. rewrite decode_struct, Hd. cbn [rbind].
    rewrite (prop_rebuild props props'); [done|congruence|done|done].
  - destruct v; try done. rewrite accepts_vec_items in Hacc.
    apply andb_true_iff in Hacc as [Hc Hit].
    apply bool_decide_eq_true in Hc.
    destruct (roundtrips_items l items IH Hit) as (bs & Es & Hd).
    cbn [serial]. rewrite decide_True by done.
    fold (serial_items l items). rewrite Es. cbn [rbind].
    eexists; split; [done|]. intros pre post. cbn [decode].
    rewrite <- (app_assoc (le_bytes _ _) bs post).
    rewrite (Buffer_read_mid' pre (le_bytes 4 (Z.of_nat (length items))) (bs ++ post))
      by (by rewrite ?length_le_bytes).
    cbn [rbind]. rewrite le_value_le_bytes by (unfold count_ok in Hc; lia). rewrite Nat2Z.id.
    fold (decode_items l (pre ++ le_bytes 4 (Z.of_nat (length items)) ++ bs ++ post)).
    specialize (Hd (pre ++ le_bytes 4 (Z.of_nat (length items))) post).
    rewrite length_app, length_le_bytes, <- app_assoc in Hd. rewrite Hd.
    cbn [rbind]. by rewrite length_app, length_le_bytes.
Qed.

(* ===================================================================== *)
(** ** [programId.ts]                                                     *)
(* ===================================================================== *)

(** A [PublicKey], by its base-58 text. *)
Definition PublicKey : Type := string.

(** Program ID defined in the provided IDL. *)
Definition PROGRAM_ID_IDL : PublicKey :=
  "srAMMzfVHVAtgSJc8iH6CfKzuWuUTzLHVCE81QU1rgi"%string.

Definition PROGRAM_ID : PublicKey := PROGRAM_ID_IDL.

(* ===================================================================== *)
(** ** [AddLiquidity.ts], on values                                       *)
(* ===================================================================== *)

(** [AccountMeta] of [@solana/web3.js].  [pubkey] is what the property
    access on the accounts object returned: [None] is JavaScript's
    [undefined], the result of reading a property the object lacks. *)
Record AccountMeta : Type := mkAccountMeta {
  pubkey : option PublicKey;
  isSigner : bool;
  isWritable : bool;
}.

(** [TransactionInstruction]: the constructor stores its three options. *)
Record TransactionInstruction : Type := mkTransactionInstruction {
  keys : list AccountMeta;
  programId : PublicKey;
  data : Buffer;
}.

(** The roles of [AddLiquidityAccounts], in declaration order. *)
Definition AddLiquidityAccounts_roles : list string :=
  ["plasmaProgram"; "logAuthority"; "pool"; "trader"; "lpPosition";
   "baseAccount"; "quoteAccount"; "baseVault"; "quoteVault";
   "tokenProgram"]%string.

(** An accounts object, as JavaScript sees it: a map from property names to
    keys.  Reading a property it lacks yields [undefined]. *)
Abbreviation AddLiquidityAccounts := (gmap string PublicKey).

(** The interface [AddLiquidityAccounts] declares every role as a required
    property: [complete] is what the type checker asks of an accounts
    object. *)
Definition complete (accounts : AddLiquidityAccounts) : Prop :=
  forall role, role ∈ AddLiquidityAccounts_roles -> is_Some (accounts !! role).

Section Builder.
(** [types.AddLiquidityIxParamsFields], [types.AddLiquidityIxParams.layout]
    and [types.AddLiquidityIxParams.toEncodable] are declared in
    [../types], outside the two embedded files: the builder is
    parameterised by them. *)
Variable Fields : Type.
Variable paramsLayout : Layout.
Variable toEncodable : Fields -> Value.

Record AddLiquidityArgs : Type := mkAddLiquidityArgs { params : Fields }.

(** [export const layout = borsh.struct([
      types.AddLiquidityIxParams.layout("params") ])] *)
Definition layout : Layout := LStruct [("params"%string, paramsLayout)].

(** The object literal [{ params: toEncodable(args.params) }]. *)
Definition encodable (args : AddLiquidityArgs) : Value :=
  VRecord [("params"%string, toEncodable (params args))].

(** The array literal [keys]. *)
Definition AddLiquidity_keys (accounts : AddLiquidityAccounts)
  : list AccountMeta :=
  [ {| pubkey := accounts !! "plasmaProgram"%string; isSigner := false; isWritable := false |};
    {| pubkey := accounts !! "logAuthority"%string; isSigner := false; isWritable := false |};
    {| pubkey := accounts !! "pool"%string; isSigner := false; isWritable := true |};
    {| pubkey := accounts !! "trader"%string; isSigner := true; isWritable := false |};
    {| pubkey := accounts !! "lpPosition"%string; isSigner := false; isWritable := true |};
    {| pubkey := accounts !! "baseAccount"%string; isSigner := false; isWritable := true |};
    {| pubkey := accounts !! "quoteAccount"%string; isSigner := false; isWritable := true |};
    {| pubkey := accounts !! "baseVault"%string; isSigner := false; isWritable := true |};
    {| pubkey := accounts !! "quoteVault"%string; isSigner := false; isWritable := true |};
    {| pubkey := accounts !! "tokenProgram"%string; isSigner := false; isWritable := false |} ].

(** The body of [AddLiquidity], with the size of the scratch buffer as a
    parameter.  An omitted [programId] argument is [None].  [layout.encode]
    writes into [buffer] and returns [len]; an exception it raises leaves
    the function. *)
Definition AddLiquidity_scratch (size : nat)
    (args : AddLiquidityArgs) (accounts : AddLiquidityAccounts)
    (programId : option PublicKey) : Result TransactionInstruction :=
  let programId := default PROGRAM_ID programId in
  let keys := AddLiquidity_keys accounts in
  let identifier := Buffer_from [1] in
  let buffer := Buffer_alloc size in
  match encode layout (encodable args) buffer 0 with
  | (Ok len, buffer) =>
      let data := Buffer_slice (Buffer_concat [identifier; buffer]) 0 (1 + len) in
      Ok {| keys := keys; programId := programId; data := data |}
  | (Throw e, _) => Throw e
  end.

(** [export function AddLiquidity(args, accounts, programId = PROGRAM_ID)]:
    the scratch buffer is [Buffer.alloc(1000)]. *)
Definition AddLiquidity := AddLiquidity_scratch 1000.
End Builder.

Arguments params {Fields} _.
Arguments mkAddLiquidityArgs {Fields} _.

(** The account template of the action, in the shape of section 3
    (AccountReferenceTemplate: role, isSigner, isWritable): the roles in the
    declaration order of the interface [AddLiquidityAccounts]; [trader]
    signs; the pool, the position, the trader's two token accounts and the
    two vaults are writable. *)
Definition AddLiquidity_template : list (string * bool * bool) :=
  [ ("plasmaProgram", false, false); ("logAuthority", false, false);
    ("pool", false, true); ("trader", true, false);
    ("lpPosition", false, true); ("baseAccount", false, true);
    ("quoteAccount", false, true); ("baseVault", false, true);
    ("quoteVault", false, true); ("tokenProgram", false, false) ]%string.

(** [resolve(template, binding)] of section 4.4, without its validation. *)
Definition resolve (template : list (string * bool * bool))
    (binding : AddLiquidityAccounts) : list AccountMeta :=
  map (fun t => {| pubkey := binding !! t.1.1;
                   isSigner := t.1.2; isWritable := t.2 |}) template.

(** The positions of a list at which a flag holds. *)
Definition positions {A : Type} (f : A -> bool) (l : list A) : list nat :=
  map fst (filter (fun ix => f ix.2 = true) (imap pair l)).

(* --------------------------------------------------------------------- *)
(** *** An instance of the parameters                                     *)
(* --------------------------------------------------------------------- *)

(** The parameter record of the program's add-liquidity instruction: two
    [u64] amounts and an optional [u64].  Its declaration lives in
    [../types]; every property below is proved for arbitrary parameters, and
    this instance provides the concrete inputs of the examples. *)
Record AddLiquidityIxParamsFields : Type := {
  desiredBaseAmountIn : Z;
  desiredQuoteAmountIn : Z;
  initialLpShares : option Z;
}.

Definition AddLiquidityIxParams_layout : Layout :=
  LStruct [ ("desiredBaseAmountIn", u64); ("desiredQuoteAmountIn", u64);
            ("initialLpShares", LOption u64) ]%string.

Definition AddLiquidityIxParams_toEncodable (f : AddLiquidityIxParamsFields) : Value :=
  VRecord [ ("desiredBaseAmountIn", VNum (desiredBaseAmountIn f));
            ("desiredQuoteAmountIn", VNum (desiredQuoteAmountIn f));
            ("initialLpShares",
             match initialLpShares f with Some z => VNum z | None => VNull end)
          ]%string.

Definition sample_args : AddLiquidityArgs AddLiquidityIxParamsFields :=
  mkAddLiquidityArgs
    {| desiredBaseAmountIn := 100; desiredQuoteAmountIn := 50;
       initialLpShares := Some 258 |}.

Definition sample_accounts : AddLiquidityAccounts :=
  list_to_map
    [ ("plasmaProgram", "Plasma"); ("logAuthority", "Log"); ("pool", "Pool");
      ("trader", "Trader"); ("lpPosition", "LpPosition");
      ("baseAccount", "BaseAccount"); ("quoteAccount", "QuoteAccount");
      ("baseVault", "BaseVault"); ("quoteVault", "QuoteVault");
      ("tokenProgram", "TokenProgram") ]%string.

Definition sample_build :=
  AddLiquidity AddLiquidityIxParamsFields AddLiquidityIxParams_layout
    AddLiquidityIxParams_toEncodable.

Example sample_build_data :
  data <$> (match sample_build sample_args sample_accounts None with
            | Ok ix => Some ix | Throw _ => None end) =
  Some (Buffer_from [1; 100;0;0;0;0;0;0;0; 50;0;0;0;0;0;0;0; 1; 2;1;0;0;0;0;0;0]).
Proof. vm_compute. reflexivity. Qed.

(* ===================================================================== *)
(** ** Properties of the builder on values                                *)
(* ===================================================================== *)

Section Builder_facts.
Variable Fields : Type.
Variable paramsLayout : Layout.
Variable toEncodable : Fields -> Value.

Lemma AddLiquidity_scratch_unfold size args accounts pid :
  AddLiquidity_scratch Fields paramsLayout toEncodable size args accounts pid =
  match encode (layout paramsLayout) (encodable Fields toEncodable args)
          (Buffer_alloc size) 0 with
  | (Ok len, buffer) =>
      Ok {| keys := AddLiquidity_keys accounts;
            programId := default PROGRAM_ID pid;
            data := Buffer_slice (Buffer_concat [Buffer_from [1]; buffer]) 0
                      (1 + len) |}
  | (Throw e, _) => Throw e
  end.
Proof. reflexivity. Qed.

Lemma AddLiquidity_unfold args accounts pid :
  AddLiquidity Fields paramsLayout toEncodable args accounts pid =
  AddLiquidity_scratch Fields paramsLayout toEncodable 1000 args accounts pid.
Proof. reflexivity. Qed.

Local Abbreviation layout := (layout paramsLayout).
Local Abbreviation encodable := (encodable Fields toEncodable).
Local Abbreviation AddLiquidity_scratch :=
  (AddLiquidity_scratch Fields paramsLayout toEncodable).
Local Abbreviation AddLiquidity := (AddLiquidity Fields paramsLayout toEncodable).

(** The instruction the builder assembles around a payload. *)
Definition assembled (accounts : AddLiquidityAccounts)
    (programId : option PublicKey) (bytes : list byte) : TransactionInstruction :=
  {| keys := AddLiquidity_keys accounts;
     programId := default PROGRAM_ID programId;
     data := Buffer_from [1] ++ bytes |}.

Lemma trim_scratch (size : nat) (bytes : list byte) :
  (length bytes <= size)%nat ->
  Buffer_slice
    (Buffer_concat [Buffer_from [1]; splice (Buffer_alloc size) 0 bytes])
    0 (1 + length bytes) = Buffer_from [1] ++ bytes.
Proof.
  intros Hfit. unfold Buffer_slice, Buffer_concat, splice.
  rewrite drop_0, Nat.sub_0_r. cbn [concat take drop Nat.add].
  rewrite app_nil_r. change (Buffer_from [1]) with [x01].
  cbn [app take Nat.add]. f_equal.
  rewrite take_0. cbn [app]. by rewrite take_app_length.
Qed.

(** The builder, case by case on what [serial] makes of the record. *)
Lemma AddLiquidity_scratch_cases size args accounts pid :
  match serial layout (encodable args) with
  | Ok bytes =>
      AddLiquidity_scratch size args accounts pid =
      if decide (length bytes <= size)%nat
      then Ok (assembled accounts pid bytes)
      else Throw RangeError
  | Throw _ => exists e, AddLiquidity_scratch size args accounts pid = Throw e
  end.
Proof.
  unfold AddLiquidity_scratch.
  pose proof (encode_refines_all layout (encodable args) (Buffer_alloc size) 0%nat
                ltac:(lia)) as H.
  unfold encode_outcome in H.
  replace (length (Buffer_alloc size)) with size in H
    by (unfold Buffer_alloc; by rewrite length_replicate).
  cbn [Nat.add] in H.
  destruct (serial layout (encodable args)) as [bytes|e].
  - destruct (decide (length bytes <= size)%nat) as [Hfit|Hover].
    + rewrite H. by rewrite trim_scratch.
    + destruct (encode _ _ _ _) as [[len|e] b']; cbn [fst] in H; [done|].
      by injection H as ->.
  - destruct H as [e' H].
    destruct (encode _ _ _ _) as [[len|e0] b']; cbn [fst] in H; [done|].
    by exists e0.
Qed.

Lemma AddLiquidity_scratch_Ok size args accounts pid ix :
  AddLiquidity_scratch size args accounts pid = Ok ix ->
  exists bytes, serial layout (encodable args) = Ok bytes /\
    (length bytes <= size)%nat /\ ix = assembled accounts pid bytes.
Proof.
  intros Hix. pose proof (AddLiquidity_scratch_cases size args accounts pid) as H.
  destruct (serial layout (encodable args)) as [bytes|e].
  - rewrite Hix in H. exists bytes.
    destruct (decide (length bytes <= size)%nat); [|done].
    injection H as ->. done.
  - destruct H as [e' H]. congruence.
Qed.

Lemma AddLiquidity_scratch_fits size args accounts pid bytes :
  serial layout (encodable args) = Ok bytes -> (length bytes <= size)%nat ->
  AddLiquidity_scratch size args accounts pid = Ok (assembled accounts pid bytes).
Proof.
  intros Hs Hfit.
  pose proof (AddLiquidity_scratch_cases size args accounts pid) as H.
  rewrite Hs in H. by rewrite decide_True in H.
Qed.

Lemma AddLiquidity_scratch_overrun size args accounts pid bytes :
  serial layout (encodable args) = Ok bytes -> (size < length bytes)%nat ->
  AddLiquidity_scratch size args accounts pid = Throw RangeError.
Proof.
  intros Hs Hover.
  pose proof (AddLiquidity_scratch_cases size args accounts pid) as H.
  rewrite Hs in H. by rewrite decide_False in H by lia.
Qed.

Lemma AddLiquidity_keys_resolve accounts :
  AddLiquidity_keys accounts = resolve AddLiquidity_template accounts.
Proof. reflexivity. Qed.
End Builder_facts.

(* ===================================================================== *)
(** ** [AddLiquidity.ts], on a store of objects                           *)
(* ===================================================================== *)

(** JavaScript objects live in a store and are passed by reference.  This
    second embedding of the builder threads the store explicitly: the ten
    meta literals, the [keys] array, [Buffer.from], [Buffer.alloc], the
    source object handed to [layout.encode], the array handed to
    [Buffer.concat], its result, the [slice] and the [new
    TransactionInstruction] each allocate a cell; property reads load from
    the store; [layout.encode] writes into the cell of the buffer it is
    handed.  The record [toEncodable] builds is nested by value in the
    literal that wraps it.  [slice] returns a view of the joined buffer;
    nothing writes to either afterwards, and the view is a cell of its own.
    When [layout.encode] throws, the bytes it wrote before the failing write
    stay in the scratch buffer. *)
Module Store.

Definition loc : Type := nat.

Section Cells.
Variable Fields : Type.
Variable paramsLayout : Layout.
Variable toEncodable : Fields -> Value.

(** The objects the builder touches.  Keys, numbers and the other immutable
    values are stored inline; references are locations. *)
Inductive cell : Type :=
| CArgs (params : loc)
| CFields (fields : Fields)
| CAccounts (accounts : gmap string PublicKey)
| CObject (v : Value)
| CMeta (m : AccountMeta)
| CArray (elems : list loc)
| CBuffer (b : Buffer)
| CInstruction (keys : loc) (programId : PublicKey) (data : loc).

Local Abbreviation heap := (list cell).

(** Computations that read and extend the store and may throw; the store
    survives a throw. *)
Definition M (A : Type) : Type := heap -> Result A * heap.

Definition ret {A : Type} (a : A) : M A := fun h => (Ok a, h).

Definition throw {A : Type} (e : Error) : M A := fun h => (Throw e, h).

Definition bind {A B : Type} (m : M A) (k : A -> M B) : M B :=
  fun h =>
    match m h with
    | (Ok a, h') => k a h'
    | (Throw e, h') => (Throw e, h')
    end.

Notation "'let*' x ':=' m 'in' k" := (bind m (fun x => k))
  (at level 10, x pattern, m at level 100, k at level 200, only parsing).

Definition alloc (c : cell) : M loc := fun h => (Ok (length h), h ++ [c]).

Definition load (l : loc) : M cell :=
  fun h =>
    match h !! l with
    | Some c => (Ok c, h)
    | None => (Throw TypeError, h)
    end.

Definition store (l : loc) (c : cell) : M unit :=
  fun h => (Ok tt, <[l := c]> h).

(** [accounts.role]: a property read on the accounts object. *)
Definition get_account (accounts : loc) (role : string) : M (option PublicKey) :=
  let* c := load accounts in
  match c with
  | CAccounts a => ret (a !! role)
  | _ => throw TypeError
  end.

(** [args.params], followed to the record it refers to. *)
Definition get_params (args : loc) : M Fields :=
  let* c := load args in
  match c with
  | CArgs p =>
      let* c' := load p in
      match c' with
      | CFields f => ret f
      | _ => throw TypeError
      end
  | _ => throw TypeError
  end.

Definition get_buffer (l : loc) : M Buffer :=
  let* c := load l in
  match c with
  | CBuffer b => ret b
  | _ => throw TypeError
  end.

(** [layout.encode(src, buffer)]: reads the source object, writes the
    destination buffer in place and returns the number of bytes written. *)
Definition layout_encode (src : loc) (buffer : loc) : M nat :=
  let* c := load src in
  match c with
  | CObject v =>
      let* b := get_buffer buffer in
      let (r, b') := encode (layout paramsLayout) v b 0 in
      let* _ := store buffer (CBuffer b') in
      match r with
      | Ok len => ret len
      | Throw e => throw e
      end
  | _ => throw TypeError
  end.

(** One element of the [keys] literal. *)
Definition meta (accounts : loc) (role : string) (signer writable : bool) : M loc :=
  let* k := get_account accounts role in
  alloc (CMeta {| pubkey := k; isSigner := signer; isWritable := writable |}).

Definition AddLiquidity (args : loc) (accounts : loc)
    (programId : option PublicKey) : M loc :=
  let programId := default PROGRAM_ID programId in
  let* m0 := meta accounts "plasmaProgram" false false in
  let* m1 := meta accounts "logAuthority" false false in
  let* m2 := meta accounts "pool" false true in
  let* m3 := meta accounts "trader" true false in
  let* m4 := meta accounts "lpPosition" false true in
  let* m5 := meta accounts "baseAccount" false true in
  let* m6 := meta accounts "quoteAccount" false true in
  let* m7 := meta accounts "baseVault" false true in
  let* m8 := meta accounts "quoteVault" false true in
  let* m9 := meta accounts "tokenProgram" false false in
  let* keys := alloc (CArray [m0; m1; m2; m3; m4; m5; m6; m7; m8; m9]) in
  let* identifier := alloc (CBuffer (Buffer_from [1])) in
  let* buffer := alloc (CBuffer (Buffer_alloc 1000)) in
  let* fields := get_params args in
  let* src := alloc (CObject (VRecord [("params"%string, toEncodable fields)])) in
  let* len := layout_encode src buffer in
  let* parts := alloc (CArray [identifier; buffer]) in
  let* b0 := get_buffer identifier in
  let* b1 := get_buffer buffer in
  let* joined := alloc (CBuffer (Buffer_concat [b0; b1])) in
  let* b2 := get_buffer joined in
  let* data := alloc (CBuffer (Buffer_slice b2 0 (1 + len))) in
  alloc (CInstruction keys programId data).

(** Reading an instruction back out of the store. *)
Definition meta_at (h : heap) (l : loc) : option AccountMeta :=
  match h !! l with
  | Some (CMeta m) => Some m
  | _ => None
  end.

Fixpoint metas_at (h : heap) (ls : list loc) : option (list AccountMeta) :=
  match ls with
  | [] => Some []
  | l :: ls' =>
      match meta_at h l, metas_at h ls' with
      | Some m, Some ms => Some (m :: ms)
      | _, _ => None
      end
  end.

Definition instruction_at (h : heap) (l : loc) : option TransactionInstruction :=
  match h !! l with
  | Some (CInstruction k p d) =>
      match h !! k, h !! d with
      | Some (CArray ms), Some (CBuffer b) =>
          match metas_at h ms with
          | Some metas => Some {| keys := metas; programId := p; data := b |}
          | None => None
          end
      | _, _ => None
      end
  | _ => None
  end.

(** What a caller observes of a call: the exception, or the instruction the
    returned reference leads to. *)
Definition observe (out : Result loc * heap) : option (Result TransactionInstruction) :=
  match out with
  | (Ok l, h) =>
      match instruction_at h l with
      | Some ix => Some (Ok ix)
      | None => None
      end
  | (Throw e, _) => Some (Throw e)
  end.

(** The caller's arguments as they sit in the store. *)
Definition inputs_at (h : heap) (args accounts : loc)
    (f : Fields) (a : gmap string PublicKey) : Prop :=
  exists p, h !! args = Some (CArgs p) /\ h !! p = Some (CFields f) /\
            h !! accounts = Some (CAccounts a).

(* --------------------------------------------------------------------- *)
(** *** Framing: what a computation leaves alone                          *)
(* --------------------------------------------------------------------- *)

(** [framed h0 m Q]: run from any store that extends [h0], the computation
    [m] ends in a store that still extends [h0], and a returned value
    satisfies [Q]. *)
Definition framed (h0 : heap) {A : Type} (m : M A) (Q : A -> Prop) : Prop :=
  forall h, h0 `prefix_of` h ->
    h0 `prefix_of` (m h).2 /\ forall a, (m h).1 = Ok a -> Q a.

Lemma framed_ret h0 {A : Type} (a : A) (Q : A -> Prop) :
  Q a -> framed h0 (ret a) Q.
Proof. intros HQ h Hh. split; [done|]. intros a' [= <-]. done. Qed.

Lemma framed_throw h0 {A : Type} (e : Error) (Q : A -> Prop) :
  framed h0 (throw e) Q.
Proof. intros h Hh. split; [done|]. intros a' [=]. Qed.

Lemma framed_bind h0 {A B : Type} (m : M A) (k : A -> M B)
    (P : A -> Prop) (Q : B -> Prop) :
  framed h0 m P -> (forall a, P a -> framed h0 (k a) Q) ->
  framed h0 (bind m k) Q.
Proof.
  intros Hm Hk h Hh. destruct (Hm h Hh) as [Hpre HP]. unfold bind.
  destruct (m h) as [[a|e] h']; simpl in *.
  - apply (Hk a (HP a eq_refl) h' Hpre).
  - split; [done|]. intros a' [=].
Qed.

Lemma framed_alloc h0 (c : cell) :
  framed h0 (alloc c) (fun l => length h0 <= l)%nat.
Proof.
  intros h Hh. simpl. split.
  - by apply prefix_app_r.
  - intros a [= <-]. by apply prefix_length.
Qed.

Lemma framed_load h0 (l : loc) : framed h0 (load l) (fun _ => True).
Proof.
  intros h Hh. unfold load. destruct (h !! l); simpl; split; done.
Qed.

Lemma framed_store h0 (l : loc) (c : cell) :
  (length h0 <= l)%nat -> framed h0 (store l c) (fun _ => True).
Proof.
  intros Hl h [ext ->]. simpl. split; [|done].
  rewrite insert_app_r_alt by done. by apply prefix_app_r.
Qed.

Lemma framed_get_account h0 accounts role :
  framed h0 (get_account accounts role) (fun _ => True).
Proof.
  apply (framed_bind _ _ _ (fun _ => True)); [apply framed_load|].
  intros [] _; solve [by apply framed_ret | apply framed_throw].
Qed.

Lemma framed_get_params h0 args : framed h0 (get_params args) (fun _ => True).
Proof.
  apply (framed_bind _ _ _ (fun _ => True)); [apply framed_load|].
  intros [] _; try apply framed_throw.
  apply (framed_bind _ _ _ (fun _ => True)); [apply framed_load|].
  intros [] _; solve [by apply framed_ret | apply framed_throw].
Qed.

Lemma framed_get_buffer h0 l : framed h0 (get_buffer l) (fun _ => True).
Proof.
  apply (framed_bind _ _ _ (fun _ => True)); [apply framed_load|].
  intros [] _; solve [by apply framed_ret | apply framed_throw].
Qed.

Lemma framed_layout_encode h0 src buffer :
  (length h0 <= buffer)%nat ->
  framed h0 (layout_encode src buffer) (fun _ => True).
Proof.
  intros Hb.
  apply (framed_bind _ _ _ (fun _ => True)); [apply framed_load|].
  intros [] _; try apply framed_throw.
  apply (framed_bind _ _ _ (fun _ => True)); [apply framed_get_buffer|].
  intros b _. destruct (encode _ _ _ _) as [r b'].
  apply (framed_bind _ _ _ (fun _ => True)); [by apply framed_store|].
  intros _ _. destruct r; [by apply framed_ret|apply framed_throw].
Qed.

Lemma framed_meta h0 accounts role signer writable :
  framed h0 (meta accounts role signer writable) (fun l => length h0 <= l)%nat.
Proof.
  apply (framed_bind _ _ _ (fun _ => True)); [apply framed_get_account|].
  intros k _. apply framed_alloc.
Qed.

Lemma framed_AddLiquidity h0 args accounts programId :
  framed h0 (AddLiquidity args accounts programId) (fun l => length h0 <= l)%nat.
Proof.
  unfold AddLiquidity.
  do 10 (eapply framed_bind; [apply framed_meta|]; intros ? _).
  do 3 (eapply framed_bind; [apply framed_alloc|]; intros ? ?).
  eapply framed_bind; [apply framed_get_params|]; intros ? _.
  eapply framed_bind; [apply framed_alloc|]; intros ? _.
  eapply framed_bind; [by apply framed_layout_encode|]; intros ? _.
  eapply framed_bind; [apply framed_alloc|]; intros ? _.
  do 2 (eapply framed_bind; [apply framed_get_buffer|]; intros ? _).
  eapply framed_bind; [apply framed_alloc|]; intros ? _.
  eapply framed_bind; [apply framed_get_buffer|]; intros ? _.
  eapply framed_bind; [apply framed_alloc|]; intros ? _.
  apply framed_alloc.
Qed.

Lemma prefix_lookup_Some' (h0 h : heap) l c :
  h0 `prefix_of` h -> h0 !! l = Some c -> h !! l = Some c.
Proof. intros [ext ->] Hl. by apply lookup_app_l_Some. Qed.

(* --------------------------------------------------------------------- *)
(** *** Running the builder on a store [h ++ ext]                         *)
(* --------------------------------------------------------------------- *)

Lemma bind_Ok {A B : Type} (m : M A) (k : A -> M B) h a h' :
  m h = (Ok a, h') -> bind m k h = k a h'.
Proof. intros H. unfold bind. by rewrite H. Qed.

Lemma bind_Throw {A B : Type} (m : M A) (k : A -> M B) h e h' :
  m h = (Throw e, h') -> bind m k h = (Throw e, h').
Proof. intros H. unfold bind. by rewrite H. Qed.

Lemma lookup_ext (h ext : heap) i : (h ++ ext) !! (length h + i)%nat = ext !! i.
Proof. rewrite lookup_app_r by lia. f_equal. lia. Qed.

Lemma alloc_ext (h ext : heap) c :
  alloc c (h ++ ext) = (Ok (length h + length ext)%nat, h ++ (ext ++ [c])).
Proof. unfold alloc. by rewrite length_app, app_assoc. Qed.

Lemma load_base (h ext : heap) l c :
  h !! l = Some c -> load l (h ++ ext) = (Ok c, h ++ ext).
Proof. intros H. unfold load. by rewrite (lookup_app_l_Some _ _ _ _ H). Qed.

Lemma load_ext (h ext : heap) i c :
  ext !! i = Some c -> load (length h + i)%nat (h ++ ext) = (Ok c, h ++ ext).
Proof. intros H. unfold load. by rewrite lookup_ext, H. Qed.

Lemma meta_ext (h ext : heap) accounts a role signer writable :
  h !! accounts = Some (CAccounts a) ->
  meta accounts role signer writable (h ++ ext) =
  (Ok (length h + length ext)%nat,
   h ++ (ext ++ [CMeta {| pubkey := a !! role; isSigner := signer;
                          isWritable := writable |}])).
Proof.
  intros H. unfold meta, get_account.
  rewrite (bind_Ok _ _ _ (a !! role) (h ++ ext)).
  - apply alloc_ext.
  - by rewrite (bind_Ok _ _ _ _ _ (load_base h ext _ _ H)).
Qed.

Lemma get_params_ext (h ext : heap) args p f :
  h !! args = Some (CArgs p) -> h !! p = Some (CFields f) ->
  get_params args (h ++ ext) = (Ok f, h ++ ext).
Proof.
  intros Ha Hp. unfold get_params.
  rewrite (bind_Ok _ _ _ _ _ (load_base h ext _ _ Ha)).
  by rewrite (bind_Ok _ _ _ _ _ (load_base h ext _ _ Hp)).
Qed.

Lemma get_buffer_ext (h ext : heap) i b :
  ext !! i = Some (CBuffer b) ->
  get_buffer (length h + i)%nat (h ++ ext) = (Ok b, h ++ ext).
Proof.
  intros H. unfold get_buffer.
  by rewrite (bind_Ok _ _ _ _ _ (load_ext h ext _ _ H)).
Qed.

Lemma layout_encode_ext (h ext : heap) i j v b :
  ext !! i = Some (CObject v) -> ext !! j = Some (CBuffer b) ->
  layout_encode (length h + i)%nat (length h + j)%nat (h ++ ext) =
  ((encode (layout paramsLayout) v b 0).1,
   h ++ <[j := CBuffer (encode (layout paramsLayout) v b 0).2]> ext).
Proof.
  intros Hi Hj. unfold layout_encode.
  rewrite (bind_Ok _ _ _ _ _ (load_ext h ext _ _ Hi)).
  rewrite (bind_Ok _ _ _ _ _ (get_buffer_ext h ext _ _ Hj)).
  destruct (encode _ _ _ _) as [r b'].
  unfold bind, store, ret, throw. rewrite insert_app_r. by destruct r.
Qed.

(** The cells a call allocates before it encodes: ten metas, the [keys]
    array and the identifier, then the scratch buffer and the source
    object. *)
Definition cells_keys (h : heap) (a : gmap string PublicKey) : list cell :=
  (CMeta <$> AddLiquidity_keys a) ++
  [CArray ((fun i => length h + i)%nat <$> seq 0 10); CBuffer (Buffer_from [1])].

Definition cells_encoded (h : heap) (a : gmap string PublicKey)
    (scratch : Buffer) (f : Fields) : list cell :=
  cells_keys h a ++
  [CBuffer scratch; CObject (VRecord [("params"%string, toEncodable f)])].

(** The cells a returning call allocates after it has encoded. *)
Definition cells_result (h : heap) (pid : PublicKey) (len : nat) (b' : Buffer)
  : list cell :=
  [CArray [(length h + 11)%nat; (length h + 12)%nat];
   CBuffer (Buffer_concat [Buffer_from [1]; b']);
   CBuffer (Buffer_slice (Buffer_concat [Buffer_from [1]; b']) 0 (1 + len));
   CInstruction (length h + 10)%nat pid (length h + 16)%nat].

Lemma AddLiquidity_run (h : heap) args accounts f a pid :
  inputs_at h args accounts f a ->
  AddLiquidity args accounts pid h =
  match encode (layout paramsLayout)
          (VRecord [("params"%string, toEncodable f)]) (Buffer_alloc 1000) 0 with
  | (Ok len, b') =>
      (Ok (length h + 17)%nat,
       h ++ cells_encoded h a b' f ++
            cells_result h (default PROGRAM_ID pid) len b')
  | (Throw e, b') => (Throw e, h ++ cells_encoded h a b' f)
  end.
Proof.
  intros (p & Hargs & Hp & Hacc).
  transitivity (AddLiquidity args accounts pid (h ++ [])); [by rewrite app_nil_r|].
  unfold AddLiquidity.
  do 10 (rewrite (bind_Ok _ _ _ _ _ (meta_ext h _ _ _ _ _ _ Hacc));
         cbn [length app]).
  do 3 (rewrite (bind_Ok _ _ _ _ _ (alloc_ext h _ _)); cbn [length app]).
  rewrite (bind_Ok _ _ _ _ _ (get_params_ext h _ _ _ _ Hargs Hp)).
  rewrite (bind_Ok _ _ _ _ _ (alloc_ext h _ _)); cbn [length app].
  pose proof (layout_encode_ext h
    (cells_encoded h a (Buffer_alloc 1000) f) 13 12
    (VRecord [("params"%string, toEncodable f)]) (Buffer_alloc 1000)
    eq_refl eq_refl) as Henc.
  change (cells_encoded h a (Buffer_alloc 1000) f) with
    ([CMeta {| pubkey := a !! "plasmaProgram"%string; isSigner := false; isWritable := false |};
      CMeta {| pubkey := a !! "logAuthority"%string; isSigner := false; isWritable := false |};
      CMeta {| pubkey := a !! "pool"%string; isSigner := false; isWritable := true |};
      CMeta {| pubkey := a !! "trader"%string; isSigner := true; isWritable := false |};
      CMeta {| pubkey := a !! "lpPosition"%string; isSigner := false; isWritable := true |};
      CMeta {| pubkey := a !! "baseAccount"%string; isSigner := false; isWritable := true |};
      CMeta {| pubkey := a !! "quoteAccount"%string; isSigner := false; isWritable := true |};
      CMeta {| pubkey := a !! "baseVault"%string; isSigner := false; isWritable := true |};
      CMeta {| pubkey := a !! "quoteVault"%string; isSigner := false; isWritable := true |};
      CMeta {| pubkey := a !! "tokenProgram"%string; isSigner := false; isWritable := false |};
      CArray [(length h + 0)%nat; (length h + 1)%nat; (length h + 2)%nat;
              (length h + 3)%nat; (length h + 4)%nat; (length h + 5)%nat;
              (length h + 6)%nat; (length h + 7)%nat; (length h + 8)%nat;
              (length h + 9)%nat];
      CBuffer (Buffer_from [1]); CBuffer (Buffer_alloc 1000);
      CObject (VRecord [("params"%string, toEncodable f)])]) in Henc |- *.
  cbn [list_insert insert] in Henc.
  destruct (encode _ _ _ _) as [[len|e] b']; cbn [fst snd] in Henc.
  - rewrite (bind_Ok _ _ _ _ _ Henc).
    rewrite (bind_Ok _ _ _ _ _ (alloc_ext h _ _)); cbn [length app].
    erewrite bind_Ok; [|by apply (get_buffer_ext h _ 11)].
    erewrite bind_Ok; [|by apply (get_buffer_ext h _ 12)].
    rewrite (bind_Ok _ _ _ _ _ (alloc_ext h _ _)); cbn [length app].
    erewrite bind_Ok; [|by apply (get_buffer_ext h _ 15)].
    rewrite (bind_Ok _ _ _ _ _ (alloc_ext h _ _)); cbn [length app].
    rewrite alloc_ext. reflexivity.
  - by rewrite (bind_Throw _ _ _ _ _ Henc).
Qed.

Lemma metas_at_ext (h ext : heap) (js : list nat) (metas : list AccountMeta) :
  Forall2 (fun j m => ext !! j = Some (CMeta m)) js metas ->
  metas_at (h ++ ext) ((fun j => length h + j)%nat <$> js) = Some metas.
Proof.
  induction 1 as [|j m js metas Hj _ IH]; [done|].
  rewrite fmap_cons. cbn [metas_at]. unfold meta_at at 1.
  by rewrite lookup_ext, Hj, IH.
Qed.

Lemma instruction_at_ext (h ext : heap) i k d p js b metas :
  ext !! i = Some (CInstruction (length h + k)%nat p (length h + d)%nat) ->
  ext !! k = Some (CArray ((fun j => length h + j)%nat <$> js)) ->
  ext !! d = Some (CBuffer b) ->
  Forall2 (fun j m => ext !! j = Some (CMeta m)) js metas ->
  instruction_at (h ++ ext) (length h + i)%nat =
  Some {| keys := metas; programId := p; data := b |}.
Proof.
  intros Hi Hk Hd Hms. unfold instruction_at.
  rewrite lookup_ext, Hi. cbn beta iota.
  rewrite !lookup_ext, Hk, Hd. by rewrite (metas_at_ext h ext js metas).
Qed.

(** The store embedding computes what the value embedding computes. *)
Lemma AddLiquidity_observe (h : heap) args accounts f a pid :
  inputs_at h args accounts f a ->
  observe (AddLiquidity args accounts pid h) =
  Some (AddLiquidity_scratch Fields paramsLayout toEncodable 1000
          (mkAddLiquidityArgs f) a pid).
Proof.
  intros Hin. rewrite (AddLiquidity_run h args accounts f a pid Hin).
  unfold AddLiquidity_scratch, encodable. cbn [params].
  destruct (encode _ _ _ _) as [[len|e] b']; [|done].
  cbn [observe].
  erewrite (instruction_at_ext h _ 17 10 16 _ (seq 0 10)); [done|done|done|done|].
  repeat constructor.
Qed.

(** A returned instruction, its [keys] array, every meta in it and its
    [data] buffer sit at locations the store [h] before the call did not
    have. *)
Definition built_fresh (h h' : heap) (l : loc) : Prop :=
  exists k p d ms b,
    h' !! l = Some (CInstruction k p d) /\
    h' !! k = Some (CArray ms) /\ h' !! d = Some (CBuffer b) /\
    (length h <= l)%nat /\ (length h <= k)%nat /\ (length h <= d)%nat /\
    Forall (fun m => (length h <= m)%nat /\ is_Some (meta_at h' m)) ms.

Lemma AddLiquidity_built_fresh (h : heap) args accounts f a pid l :
  inputs_at h args accounts f a ->
  (AddLiquidity args accounts pid h).1 = Ok l ->
  built_fresh h (AddLiquidity args accounts pid h).2 l.
Proof.
  intros Hin. rewrite (AddLiquidity_run h args accounts f a pid Hin).
  destruct (encode _ _ _ _) as [[len|e] b']; [|done].
  cbn [fst snd]. intros [= <-].
  eexists (length h + 10)%nat, _, (length h + 16)%nat,
    ((fun j => length h + j)%nat <$> seq 0 10), _.
  rewrite !lookup_ext.
  split; [reflexivity|]. split; [reflexivity|]. split; [reflexivity|].
  split; [lia|]. split; [lia|]. split; [lia|].
  apply Forall_fmap, Forall_forall. intros j Hj. cbn [compose]. split; [lia|].
  unfold meta_at. rewrite lookup_ext.
  apply elem_of_seq in Hj.
  do 10 (destruct j as [|j]; [by eexists|]). lia.
Qed.

Lemma inputs_at_prefix (h h' : heap) args accounts f a :
  h `prefix_of` h' -> inputs_at h args accounts f a ->
  inputs_at h' args accounts f a.
Proof.
  intros Hpre (p & Ha & Hp & Hacc). exists p.
  repeat split; by eapply prefix_lookup_Some'.
Qed.

End Cells.
End Store.

(* ===================================================================== *)
(** ** The library's encoder on records that lack a field                 *)
(* ===================================================================== *)

(** [encode] above is the encoder of the specification's contract: it
    rejects a record that lacks a field of the schema.  The library the
    builder calls does not: [Structure.encode] of [buffer-layout] skips a
    field whose property is [undefined].  This module models that encoder,
    which is what [layout.encode] runs when the builder is called from
    JavaScript with a record the type [AddLiquidityIxParamsFields] would
    not admit.  The library is a dependency and its sources are not among
    the embedded files: the definitions follow [Structure.encode] and
    [getSpan] of [buffer-layout] and the [option], [vec] and [vecU8]
    layouts of [@coral-xyz/borsh].  A thrown exception is [None]; its class
    is not modelled. *)
Module Js.

(** A bounds-checked write at an offset that is a JavaScript number and can
    be negative. *)
Definition write_at (b : Buffer) (off : Z) (bs : list byte)
  : option unit * Buffer :=
  if decide (0 <= off /\ off + Z.of_nat (length bs) <= Z.of_nat (length b))
  then (Some tt, splice b (Z.to_nat off) bs)
  else (None, b).

(** A bounds-checked read, as the [readUInt..LE] methods the spans are read
    with. *)
Definition read_at (b : Buffer) (off : Z) (n : nat) : option (list byte) :=
  if decide (0 <= off /\ off + Z.of_nat n <= Z.of_nat (length b))
  then Some (take n (drop (Z.to_nat off) b))
  else None.

Definition and_then {A B : Type} (r : option A * Buffer)
    (k : A -> Buffer -> option B * Buffer) : option B * Buffer :=
  match r with
  | (Some a, b) => k a b
  | (None, b) => (None, b)
  end.

Notation "'let?' x '&' b ':=' r 'in' k" := (and_then r (fun x b => k))
  (at level 10, x pattern, b name, r at level 100, k at level 200, only parsing).

(** Modelled from the spec: section 4.1 gives each primitive its width; the
    library keeps it in [layout.span], which is [-1] (here [None]) for a
    layout whose width depends on the value.  An option is of variable
    width whatever it wraps. *)
Fixpoint span (l : Layout) : option nat :=
  match l with
  | LUInt w | LInt w => Some w
  | LBool => Some 1%nat
  | LBlob n => Some n
  | LBytes | LOption _ | LVec _ => None
  | LStruct fields =>
      (fix go (fs : list (string * Layout)) : option nat :=
         match fs with
         | [] => Some 0%nat
         | (_, lf) :: fs' =>
             match span lf, go fs' with
             | Some a, Some c => Some (a + c)%nat
             | _, _ => None
             end
         end) fields
  end.

(** Modelled from the spec: [layout.getSpan(b, offset)] of the library, the
    width of what is encoded in [b] at [offset], read back from the length
    prefixes and presence tags of section 4.1 where the width varies. *)
Fixpoint getSpan (l : Layout) (b : Buffer) (off : Z) : option Z :=
  match l with
  | LUInt w | LInt w => Some (Z.of_nat w)
  | LBool => Some 1
  | LBlob n => Some (Z.of_nat n)
  | LBytes =>
      match read_at b off 4 with
      | Some hd => Some (4 + le_value hd)
      | None => None
      end
  | LOption l' =>
      match read_at b off 1 with
      | Some tag =>
          match le_value tag with
          | 0 => Some 1
          | 1 => match getSpan l' b (off + 1) with
                 | Some n => Some (n + 1)
                 | None => None
                 end
          | _ => None
          end
      | None => None
      end
  | LStruct fields =>
      match span (LStruct fields) with
      | Some s => Some (Z.of_nat s)
      | None =>
          (fix go (fs : list (string * Layout)) (off : Z) : option Z :=
             match fs with
             | [] => Some 0
             | (_, lf) :: fs' =>
                 match getSpan lf b off with
                 | Some n1 =>
                     match go fs' (off + n1) with
                     | Some n2 => Some (n1 + n2)
                     | None => None
                     end
                 | None => None
                 end
             end) fields off
      end
  | LVec l' =>
      match read_at b off 4 with
      | Some hd =>
          match
            (fix go (cnt : nat) (off : Z) : option Z :=
               match cnt with
               | O => Some 0
               | S cnt' =>
                   match getSpan l' b off with
                   | Some n1 =>
                       match go cnt' (off + n1) with
                       | Some n2 => Some (n1 + n2)
                       | None => None
                       end
                   | None => None
                   end
               end) (Z.to_nat (le_value hd)) (off + 4)
          with
          | Some n => Some (4 + n)
          | None => None
          end
      | None => None
      end
  end.

(** Modelled from the spec: the step of [Structure.encode] from one field
    to the next, in the library's terms.  It moves on by the field's span
    when that is fixed, by the span read back from the buffer when the
    field was written and is of variable width, and by [-1] when a field of
    variable width was skipped. *)
Definition advance (lf : Layout) (b : Buffer) (off : Z) (written : bool)
  : option Z :=
  match span lf with
  | Some s => Some (Z.of_nat s)
  | None => if written then getSpan lf b off else Some (-1)
  end.

(** Modelled from the spec: what [Structure.encode] records as [lastWrote]
    for a field it skips, its span when that is positive and zero
    otherwise. *)
Definition skipped_width (lf : Layout) : Z :=
  match span lf with
  | Some s => Z.of_nat s
  | None => 0
  end.

(** Modelled from the spec: [encode(value, destinationBuffer, offset)] of
    section 4.1 as the library runs it; the library is a dependency and its
    sources are not among the embedded files.  The primitives write what
    [encode] above writes.  The model covers objects for records, arrays
    for sequences and, for a primitive, the values [accepts] admits; on any
    other value it stops with [None], although the library takes some of
    them (a boolean layout any value, by its truthiness), and no statement
    below concerns such a value.  The record case is
    [Structure.encode] of [buffer-layout]: it keeps the offset of the last
    field and the number of bytes that field wrote, skips a field whose
    property is absent, and returns [lastOffset + lastWrote - firstOffset].
    Length-prefixed bytes and sequences write their content first and the
    prefix after it. *)
Fixpoint encode (l : Layout) (v : Value) (b : Buffer) (off : Z)
  : option Z * Buffer :=
  match l, v with
  | LUInt w, VNum z =>
      if decide (unsigned_ok w z)
      then let? _ & b' := write_at b off (le_bytes w z) in
           (Some (Z.of_nat w), b')
      else (None, b)
  | LInt w, VNum z =>
      if decide (signed_ok w z)
      then let? _ & b' := write_at b off (le_bytes w (z mod width_range w)) in
           (Some (Z.of_nat w), b')
      else (None, b)
  | LBool, VBool t =>
      let? _ & b' := write_at b off [bool_byte t] in (Some 1, b')
  | LBlob n, VBytes bs =>
      if decide (length bs = n)
      then let? _ & b' := write_at b off bs in (Some (Z.of_nat n), b')
      else (None, b)
  | LBytes, VBytes bs =>
      let? _ & b1 := write_at b (off + 4) bs in
      if decide (count_ok (length bs))
      then let? _ & b2 := write_at b1 off (le_bytes 4 (Z.of_nat (length bs))) in
           (Some (4 + Z.of_nat (length bs)), b2)
      else (None, b1)
  | LOption _, VNull =>
      let? _ & b' := write_at b off [x00] in (Some 1, b')
  | LOption l', _ =>
      let? _ & b1 := write_at b off [x01] in
      let? n & b2 := encode l' v b1 (off + 1) in
      (Some (n + 1), b2)
  | LStruct fields, VRecord props =>
      let? last & b' :=
        (fix go (fs : list (string * Layout)) (b : Buffer) (off : Z)
                (lastOffset lastWrote : Z) : option (Z * Z) * Buffer :=
           match fs with
           | [] => (Some (lastOffset, lastWrote), b)
           | (name, lf) :: fs' =>
               match prop name props with
               | Some fv =>
                   let? wrote & b1 := encode lf fv b off in
                   match advance lf b1 off true with
                   | Some adv => go fs' b1 (off + adv) off wrote
                   | None => (None, b1)
                   end
               | None =>
                   match advance lf b off false with
                   | Some adv => go fs' b (off + adv) off (skipped_width lf)
                   | None => (None, b)
                   end
               end
           end) fields b off 0 0 in
      (Some (last.1 + last.2 - off), b')
  | LVec l', VArray items =>
      let? n & b1 :=
        (fix go (vs : list Value) (b : Buffer) (n : Z) : option Z * Buffer :=
           match vs with
           | [] => (Some n, b)
           | x :: vs' =>
               let? n1 & b1 := encode l' x b (off + 4 + n) in
               go vs' b1 (n + n1)
           end) items b 0 in
      if decide (count_ok (length items))
      then let? _ & b2 := write_at b1 off (le_bytes 4 (Z.of_nat (length items))) in
           match getSpan (LVec l') b2 off with
           | Some _ => (Some (4 + n), b2)
           | None => (None, b2)
           end
      else (None, b1)
  | _, _ => (None, b)
  end.

(** [buf.slice(0, end)]: a negative [end] counts from the end of the
    buffer, and both ends are clamped. *)
Definition slice_to (b : Buffer) (stop : Z) : Buffer :=
  take (Z.to_nat (if decide (stop < 0) then Z.of_nat (length b) + stop else stop)) b.

(** The layouts in which every record has a field.  [Structure.encode]
    starts from [lastOffset = 0], so that an empty record reports
    [- firstOffset] bytes; the schemas of the instructions have none. *)
Fixpoint nonempty_records (l : Layout) : bool :=
  match l with
  | LUInt _ | LInt _ | LBool | LBlob _ | LBytes => true
  | LOption l' | LVec l' => nonempty_records l'
  | LStruct fields =>
      match fields with [] => false | _ :: _ => true end &&
      (fix go (fs : list (string * Layout)) : bool :=
         match fs with
         | [] => true
         | (_, lf) :: fs' => nonempty_records lf && go fs'
         end) fields
  end.

(* --------------------------------------------------------------------- *)
(** *** The loops over fields and items, by name                          *)
(* --------------------------------------------------------------------- *)

Definition struct_span :=
  fix go (fs : list (string * Layout)) : option nat :=
    match fs with
    | [] => Some 0%nat
    | (_, lf) :: fs' =>
        match span lf, go fs' with
        | Some a, Some c => Some (a + c)%nat
        | _, _ => None
        end
    end.

Definition struct_getSpan (b : Buffer) :=
  fix go (fs : list (string * Layout)) (off : Z) : option Z :=
    match fs with
    | [] => Some 0
    | (_, lf) :: fs' =>
        match getSpan lf b off with
        | Some n1 =>
            match go fs' (off + n1) with
            | Some n2 => Some (n1 + n2)
            | None => None
            end
        | None => None
        end
    end.

Definition seq_getSpan (l : Layout) (b : Buffer) :=
  fix go (cnt : nat) (off : Z) : option Z :=
    match cnt with
    | O => Some 0
    | S cnt' =>
        match getSpan l b off with
        | Some n1 =>
            match go cnt' (off + n1) with
            | Some n2 => Some (n1 + n2)
            | None => None
            end
        | None => None
        end
    end.

Definition struct_encode (props : list (string * Value)) :=
  fix go (fs : list (string * Layout)) (b : Buffer) (off : Z)
         (lastOffset lastWrote : Z) : option (Z * Z) * Buffer :=
    match fs with
    | [] => (Some (lastOffset, lastWrote), b)
    | (name, lf) :: fs' =>
        match prop name props with
        | Some fv =>
            let? wrote & b1 := encode lf fv b off in
            match advance lf b1 off true with
            | Some adv => go fs' b1 (off + adv) off wrote
            | None => (None, b1)
            end
        | None =>
            match advance lf b off false with
            | Some adv => go fs' b (off + adv) off (skipped_width lf)
            | None => (None, b)
            end
        end
    end.

Definition seq_encode (l : Layout) (off : Z) :=
  fix go (vs : list Value) (b : Buffer) (n : Z) : option Z * Buffer :=
    match vs with
    | [] => (Some n, b)
    | x :: vs' =>
        let? n1 & b1 := encode l x b (off + 4 + n) in
        go vs' b1 (n + n1)
    end.

Definition nonempty_fields :=
  fix go (fs : list (string * Layout)) : bool :=
    match fs with
    | [] => true
    | (_, lf) :: fs' => nonempty_records lf && go fs'
    end.

Lemma span_struct fs : span (LStruct fs) = struct_span fs.
Proof. reflexivity. Qed.

Lemma getSpan_struct fs b off :
  getSpan (LStruct fs) b off =
  match struct_span fs with
  | Some s => Some (Z.of_nat s)
  | None => struct_getSpan b fs off
  end.
Proof. reflexivity. Qed.

Lemma getSpan_vec l b off :
  getSpan (LVec l) b off =
  match read_at b off 4 with
  | Some hd =>
      match seq_getSpan l b (Z.to_nat (le_value hd)) (off + 4) with
      | Some n => Some (4 + n)
      | None => None
      end
  | None => None
  end.
Proof. reflexivity. Qed.

Lemma encode_record fs props b off :
  encode (LStruct fs) (VRecord props) b off =
  (let? last & b' := struct_encode props fs b off 0 0 in
   (Some (last.1 + last.2 - off), b')).
Proof. reflexivity. Qed.

Lemma encode_vec l items b off :
  encode (LVec l) (VArray items) b off =
  (let? n & b1 := seq_encode l off items b 0 in
   if decide (count_ok (length items))
   then let? _ & b2 := write_at b1 off (le_bytes 4 (Z.of_nat (length items))) in
        match getSpan (LVec l) b2 off with
        | Some _ => (Some (4 + n), b2)
        | None => (None, b2)
        end
   else (None, b1)).
Proof. reflexivity. Qed.

Lemma nonempty_records_struct fs :
  nonempty_records (LStruct fs) =
  match fs with [] => false | _ :: _ => true end && nonempty_fields fs.
Proof. reflexivity. Qed.

(* --------------------------------------------------------------------- *)
(** *** Reads and writes inside the buffer                                *)
(* --------------------------------------------------------------------- *)

Lemma write_at_nat b (off : nat) bs :
  write_at b (Z.of_nat off) bs =
  if decide (off + length bs <= length b)%nat
  then (Some tt, splice b off bs) else (None, b).
Proof.
  unfold write_at. rewrite Nat2Z.id.
  destruct (decide (0 <= _ /\ _)), (decide (_ <= _)%nat); try done; lia.
Qed.

Lemma read_at_mid (pre bs post : list byte) off n :
  off = Z.of_nat (length pre) -> n = length bs ->
  read_at (pre ++ bs ++ post) off n = Some bs.
Proof.
  intros -> ->. unfold read_at.
  rewrite decide_True by (rewrite !length_app; lia).
  by rewrite Nat2Z.id, drop_app_length, take_app_length.
Qed.

Lemma and_then_None {A B : Type} (r : option A * Buffer)
    (k : A -> Buffer -> option B * Buffer) :
  r.1 = None -> (and_then r k).1 = None.
Proof. by destruct r as [[a|] b]. Qed.

(** A header written below content that is already in place. *)
Lemma splice_under b off k hd bs :
  length hd = k -> (off + k + length bs <= length b)%nat ->
  splice (splice b (off + k) bs) off hd = splice b off (hd ++ bs).
Proof.
  intros <- H. unfold splice.
  rewrite take_app_le by (rewrite length_take; lia).
  rewrite take_take, Nat.min_l by lia.
  rewrite drop_app_ge by (rewrite length_take; lia).
  rewrite length_take, Nat.min_l by lia.
  by rewrite Nat.sub_diag, drop_0, length_app, <- app_assoc, Nat.add_assoc.
Qed.

(* --------------------------------------------------------------------- *)
(** *** Spans                                                             *)
(* --------------------------------------------------------------------- *)

(** A layout with a span encodes every value in that many bytes. *)
Definition fixed_width (l : Layout) : Prop :=
  forall v s bs, span l = Some s -> serial l v = Ok bs -> length bs = s.

Lemma fixed_width_fields props fs :
  Forall (fun nl => fixed_width nl.2) fs ->
  forall s bs, struct_span fs = Some s -> serial_fields props fs = Ok bs ->
    length bs = s.
Proof.
  induction 1 as [|[name lf] fs Hlf _ IH]; intros s bs Hs Hb.
  - injection Hs as <-. by injection Hb as <-.
  - cbn [struct_span serial_fields] in Hs, Hb.
    destruct (span lf) as [a|] eqn:Ea; [|done].
    destruct (struct_span fs) as [c|] eqn:Ec; [|done].
    injection Hs as <-.
    destruct (prop name props) as [fv|]; [|done].
    destruct (serial lf fv) as [b1|] eqn:E1; [|done].
    destruct (serial_fields props fs) as [b2|] eqn:E2; [|done].
    cbn [rbind] in Hb. injection Hb as <-. rewrite length_app.
    by rewrite (Hlf fv a b1 Ea E1), (IH c b2 eq_refl eq_refl).
Qed.

Lemma fixed_width_all (l : Layout) : fixed_width l.
Proof.
  induction l as [w|w| |n| |l IH|fs IH|l IH] using Layout_nested_ind;
    intros v s bs Hw Hs.
  - destruct v; try done. cbn [serial span] in *.
    destruct (decide _); [|done].
    assert (bs = le_bytes w z) as -> by congruence.
    rewrite length_le_bytes. by injection Hw.
  - destruct v; try done. cbn [serial span] in *.
    destruct (decide _); [|done].
    assert (bs = le_bytes w (z mod width_range w)) as -> by congruence.
    rewrite length_le_bytes. by injection Hw.
  - destruct v; try done. cbn [serial span] in *.
    injection Hs as <-. by injection Hw as <-.
  - destruct v; try done. cbn [serial span] in *.
    destruct (decide _) as [Hn|]; [|done].
    injection Hs as <-. injection Hw as <-. done.
  - done.
  - done.
  - destruct v; try done. rewrite serial_struct in Hs. rewrite span_struct in Hw.
    by apply (fixed_width_fields props fs IH).
  - done.
Qed.

(** [getSpan] reads back, from a buffer that holds an encoding at the
    offset, the length of that encoding. *)
Definition spans (l : Layout) : Prop :=
  forall v bs, serial l v = Ok bs ->
    forall pre post,
      getSpan l (pre ++ bs ++ post) (Z.of_nat (length pre)) =
      Some (Z.of_nat (length bs)).

Lemma spans_fields props fs :
  Forall (fun nl => spans nl.2) fs ->
  forall bs, serial_fields props fs = Ok bs ->
  forall pre post,
    struct_getSpan (pre ++ bs ++ post) fs (Z.of_nat (length pre)) =
    Some (Z.of_nat (length bs)).
Proof.
  induction 1 as [|[name lf] fs Hlf _ IH]; intros bs Hb pre post.
  - by injection Hb as <-.
  - cbn [serial_fields] in Hb.
    destruct (prop name props) as [fv|]; [|done].
    destruct (serial lf fv) as [b1|] eqn:E1; [|done].
    destruct (serial_fields props fs) as [b2|] eqn:E2; [|done].
    cbn [rbind] in Hb. injection Hb as <-.
    cbn [struct_getSpan]. rewrite <- app_assoc.
    cbn [snd] in Hlf. rewrite (Hlf fv b1 E1 pre (b2 ++ post)).
    specialize (IH b2 eq_refl (pre ++ b1) post).
    rewrite length_app, <- app_assoc, Nat2Z.inj_add in IH. rewrite IH.
    by rewrite length_app, Nat2Z.inj_add.
Qed.

Lemma spans_items l vs :
  spans l ->
  forall bs, serial_items l vs = Ok bs ->
  forall pre post,
    seq_getSpan l (pre ++ bs ++ post) (length vs) (Z.of_nat (length pre)) =
    Some (Z.of_nat (length bs)).
Proof.
  intros Hl. induction vs as [|x vs IH]; intros bs Hb pre post.
  - by injection Hb as <-.
  - cbn [serial_items] in Hb.
    destruct (serial l x) as [b1|] eqn:E1; [|done].
    destruct (serial_items l vs) as [b2|] eqn:E2; [|done].
    cbn [rbind] in Hb. injection Hb as <-.
    cbn [seq_getSpan length]. rewrite <- app_assoc.
    rewrite (Hl x b1 E1 pre (b2 ++ post)).
    specialize (IH b2 eq_refl (pre ++ b1) post).
    rewrite length_app, <- app_assoc, Nat2Z.inj_add in IH. rewrite IH.
    by rewrite length_app, Nat2Z.inj_add.
Qed.

Lemma spans_all (l : Layout) : spans l.
Proof.
  induction l as [w|w| |n| |l IH|fs IH|l IH] using Layout_nested_ind;
    intros v bs Hs pre post.
  - destruct v; try done. cbn [serial] in Hs.
    destruct (decide _); [|done].
    assert (bs = le_bytes w z) as -> by congruence.
    cbn [getSpan]. by rewrite length_le_bytes.
  - destruct v; try done. cbn [serial] in Hs.
    destruct (decide _); [|done].
    assert (bs = le_bytes w (z mod width_range w)) as -> by congruence.
    cbn [getSpan]. by rewrite length_le_bytes.
  - destruct v; try done. cbn [serial] in Hs. by injection Hs as <-.
  - destruct v; try done. cbn [serial] in Hs.
    destruct (decide _) as [Hn|]; [|done].
    injection Hs as <-. cbn [getSpan]. by rewrite Hn.
  - destruct v; try done. cbn [serial] in Hs.
    destruct (decide _) as [Hc|]; [|done].
    assert (bs = le_bytes 4 (Z.of_nat (length bs0)) ++ bs0) as -> by congruence.
    cbn [getSpan]. rewrite <- app_assoc.
    rewrite (read_at_mid pre (le_bytes 4 (Z.of_nat (length bs0))) (bs0 ++ post))
      by (by rewrite ?length_le_bytes).
    rewrite le_value_le_bytes by (unfold count_ok in Hc; lia).
    rewrite length_app, length_le_bytes. f_equal. lia.
  - assert (Hsome : forall bs,
              (let! bs' := serial l v in Ok (x01 :: bs')) = Ok bs ->
              getSpan (LOption l) (pre ++ bs ++ post) (Z.of_nat (length pre)) =
              Some (Z.of_nat (length bs))).
    { intros bs1 H1. destruct (serial l v) as [bs'|] eqn:E; [|done].
      injection H1 as <-. cbn [getSpan].
      change (pre ++ (x01 :: bs') ++ post) with (pre ++ [x01] ++ (bs' ++ post)).
      rewrite (read_at_mid pre [x01] (bs' ++ post)) by done.
      change (le_value [x01]) with 1. cbv iota.
      specialize (IH v bs' E (pre ++ [x01]) post).
      rewrite length_app, <- app_assoc, Nat2Z.inj_add in IH.
      change (Z.of_nat (length [x01])) with 1 in IH. rewrite IH.
      f_equal. cbn [length]. lia. }
    destruct v; try (by apply Hsome).
    cbn [serial] in Hs. injection Hs as <-. cbn [getSpan].
    by rewrite (read_at_mid pre [x00] post).
  - destruct v; try done. rewrite serial_struct in Hs. rewrite getSpan_struct.
    destruct (struct_span fs) as [s|] eqn:Es.
    + do 2 f_equal. symmetry.
      apply (fixed_width_fields props fs); [|done|done].
      apply Forall_forall. intros nl _. apply fixed_width_all.
    + by apply (spans_fields props fs IH).
  - destruct v; try done. cbn [serial] in Hs.
    destruct (decide _) as [Hc|]; [|done].
    fold (serial_items l items) in Hs.
    destruct (serial_items l items) as [bs'|] eqn:Ei; [|done].
    assert (bs = le_bytes 4 (Z.of_nat (length items)) ++ bs') as ->
      by (cbn [rbind] in Hs; congruence).
    rewrite getSpan_vec, <- app_assoc.
    rewrite (read_at_mid pre (le_bytes 4 (Z.of_nat (length items))) (bs' ++ post))
      by (by rewrite ?length_le_bytes).
    rewrite le_value_le_bytes by (unfold count_ok in Hc; lia).
    rewrite Nat2Z.id.
    pose proof (spans_items l items IH bs' Ei
                  (pre ++ le_bytes 4 (Z.of_nat (length items))) post) as H.
    rewrite length_app, length_le_bytes, <- app_assoc, Nat2Z.inj_add in H.
    change (Z.of_nat 4) with 4 in H. rewrite H.
    rewrite length_app, length_le_bytes. f_equal. lia.
Qed.

(* --------------------------------------------------------------------- *)
(** *** On a record with every field, the library writes [serial]'s bytes *)
(* --------------------------------------------------------------------- *)

(** What the library's [encode] does with a value that [serial] turns into
    [bs]: the bytes are written in place and their number returned when
    they fit, and an exception is thrown when they do not. *)
Definition outcome (b : Buffer) (off : nat) (bs : list byte)
    (e : option Z * Buffer) : Prop :=
  if decide (off + length bs <= length b)%nat
  then e = (Some (Z.of_nat (length bs)), splice b off bs)
  else e.1 = None.

Definition agrees (l : Layout) : Prop :=
  nonempty_records l = true ->
  forall v bs, serial l v = Ok bs ->
    forall b off, outcome b off bs (encode l v b (Z.of_nat off)).

Lemma outcome_write b off bs (n : Z) :
  n = Z.of_nat (length bs) ->
  outcome b off bs (let? _ & b' := write_at b (Z.of_nat off) bs in (Some n, b')).
Proof.
  intros ->. unfold outcome. rewrite write_at_nat.
  by destruct (decide _).
Qed.

(** After a field was written, [Structure.encode] moves on by exactly the
    bytes written. *)
Lemma advance_written lf v bs b off :
  serial lf v = Ok bs -> (off + length bs <= length b)%nat ->
  advance lf (splice b off bs) (Z.of_nat off) true = Some (Z.of_nat (length bs)).
Proof.
  intros Hs Hfit. unfold advance.
  destruct (span lf) as [s|] eqn:Es.
  - by rewrite (fixed_width_all lf v s bs Es Hs).
  - pose proof (spans_all lf v bs Hs (take off b) (drop (off + length bs) b)) as H.
    rewrite length_take, Nat.min_l in H by lia. exact H.
Qed.

Lemma agrees_fields props fs :
  Forall (fun nl => agrees nl.2) fs ->
  nonempty_fields fs = true ->
  forall bs, serial_fields props fs = Ok bs ->
  forall b off lo lw,
    (fs = [] -> lo + lw = Z.of_nat off /\ (off <= length b)%nat) ->
    if decide (off + length bs <= length b)%nat
    then exists last,
           struct_encode props fs b (Z.of_nat off) lo lw =
             (Some last, splice b off bs) /\
           last.1 + last.2 = Z.of_nat (off + length bs)
    else (struct_encode props fs b (Z.of_nat off) lo lw).1 = None.
Proof.
  induction 1 as [|[name lf] fs Hlf _ IH]; intros Hne bs Hb b off lo lw Hnil.
  - injection Hb as <-. destruct (Hnil eq_refl) as [Hsum Hoff].
    cbn [length]. rewrite decide_True by lia.
    exists (lo, lw). rewrite splice_nil. cbn [struct_encode fst snd].
    split; [done|lia].
  - cbn [nonempty_fields] in Hne. apply andb_true_iff in Hne as [Hnlf Hnfs].
    cbn [serial_fields] in Hb.
    destruct (prop name props) as [fv|] eqn:Ep; [|done].
    destruct (serial lf fv) as [b1|] eqn:E1; [|done].
    destruct (serial_fields props fs) as [b2|] eqn:E2; [|done].
    cbn [rbind] in Hb. injection Hb as <-.
    cbn [struct_encode]. rewrite Ep. cbn [snd] in Hlf.
    pose proof (Hlf Hnlf fv b1 E1 b off) as H1. unfold outcome in H1.
    rewrite length_app.
    destruct (decide (off + length b1 <= length b)%nat) as [Hfit1|Hover1].
    + rewrite H1. cbn [and_then].
      rewrite (advance_written lf fv b1 b off E1 Hfit1).
      rewrite <- Nat2Z.inj_add.
      specialize (IH Hnfs b2 eq_refl (splice b off b1) (off + length b1)%nat
                    (Z.of_nat off) (Z.of_nat (length b1))).
      rewrite length_splice in IH by done.
      assert (Hpre : fs = [] ->
                Z.of_nat off + Z.of_nat (length b1) =
                  Z.of_nat (off + length b1) /\
                (off + length b1 <= length b)%nat) by (intros _; split; lia).
      specialize (IH Hpre).
      destruct (decide (off + length b1 + length b2 <= length b)%nat)
        as [Hfit|Hover].
      * rewrite decide_True by lia.
        destruct IH as (last & -> & Hlast).
        exists last. rewrite splice_splice by done. split; [done|].
        rewrite Hlast. lia.
      * rewrite decide_False by lia. exact IH.
    + rewrite decide_False by lia. by apply and_then_None.
Qed.

Lemma agrees_items l vs :
  agrees l -> nonempty_records l = true ->
  forall bs, serial_items l vs = Ok bs ->
  forall b off n, (off + 4 + n <= length b)%nat ->
    if decide (off + 4 + n + length bs <= length b)%nat
    then seq_encode l (Z.of_nat off) vs b (Z.of_nat n) =
           (Some (Z.of_nat (n + length bs)), splice b (off + 4 + n) bs)
    else (seq_encode l (Z.of_nat off) vs b (Z.of_nat n)).1 = None.
Proof.
  intros Hl Hne. induction vs as [|x vs IH]; intros bs Hb b off n Hpre.
  - injection Hb as <-. cbn [length seq_encode]. rewrite decide_True by lia.
    by rewrite splice_nil, Nat.add_0_r.
  - cbn [serial_items] in Hb.
    destruct (serial l x) as [b1|] eqn:E1; [|done].
    destruct (serial_items l vs) as [b2|] eqn:E2; [|done].
    cbn [rbind] in Hb. injection Hb as <-.
    cbn [seq_encode].
    replace (Z.of_nat off + 4 + Z.of_nat n) with (Z.of_nat (off + 4 + n)) by lia.
    pose proof (Hl Hne x b1 E1 b (off + 4 + n)%nat) as H1. unfold outcome in H1.
    rewrite length_app.
    destruct (decide (off + 4 + n + length b1 <= length b)%nat) as [Hfit1|Hover1].
    + rewrite H1. cbn [and_then]. rewrite <- Nat2Z.inj_add.
      specialize (IH b2 eq_refl (splice b (off + 4 + n) b1) off (n + length b1)%nat).
      rewrite length_splice in IH by done.
      assert (Hpre' : (off + 4 + (n + length b1) <= length b)%nat) by lia.
      specialize (IH Hpre').
      replace (off + 4 + (n + length b1))%nat
        with (off + 4 + n + length b1)%nat in IH by lia.
      destruct (decide (off + 4 + n + length b1 + length b2 <= length b)%nat).
      * rewrite decide_True by lia. rewrite IH, splice_splice by done.
        do 3 f_equal. lia.
      * rewrite decide_False by lia. exact IH.
    + rewrite decide_False by lia. by apply and_then_None.
Qed.

Lemma agrees_all (l : Layout) : agrees l.
Proof.
  induction l as [w|w| |n| |l IH|fs IH|l IH] using Layout_nested_ind;
    intros Hne v bs Hs b off.
  - destruct v; try done. cbn [serial] in Hs. cbn [encode].
    destruct (decide (unsigned_ok w z)); [|done].
    assert (bs = le_bytes w z) as -> by congruence.
    apply outcome_write. by rewrite length_le_bytes.
  - destruct v; try done. cbn [serial] in Hs. cbn [encode].
    destruct (decide (signed_ok w z)); [|done].
    assert (bs = le_bytes w (z mod width_range w)) as -> by congruence.
    apply outcome_write. by rewrite length_le_bytes.
  - destruct v; try done. cbn [serial] in Hs. injection Hs as <-.
    cbn [encode]. by apply outcome_write.
  - destruct v; try done. cbn [serial] in Hs. cbn [encode].
    destruct (decide (length bs0 = n)) as [Hn|]; [|done].
    injection Hs as <-. apply outcome_write. by rewrite Hn.
  - destruct v; try done. cbn [serial] in Hs. cbn [encode].
    destruct (decide (count_ok (length bs0))) as [Hc|]; [|done].
    assert (bs = le_bytes 4 (Z.of_nat (length bs0)) ++ bs0) as -> by congruence.
    unfold outcome. rewrite length_app, length_le_bytes.
    replace (Z.of_nat off + 4) with (Z.of_nat (off + 4)) by lia.
    rewrite write_at_nat, Nat.add_assoc.
    destruct (decide (off + 4 + length bs0 <= length b)%nat) as [Hfit|Hover];
      cbn [and_then]; [|done].
    rewrite write_at_nat, length_splice, length_le_bytes by done.
    rewrite decide_True by lia. cbn [and_then].
    rewrite (splice_under b off 4) by (by rewrite ?length_le_bytes).
    do 2 f_equal. lia.
  - assert (Hsome : forall bs,
              (let! bs' := serial l v in Ok (x01 :: bs')) = Ok bs ->
              outcome b off bs
                (let? _ & b1 := write_at b (Z.of_nat off) [x01] in
                 let? n & b2 := encode l v b1 (Z.of_nat off + 1) in
                 (Some (n + 1), b2))).
    { intros bs1 H1. destruct (serial l v) as [bs'|] eqn:E; [|done].
      injection H1 as <-. unfold outcome. rewrite write_at_nat. cbn [length].
      replace (Z.of_nat off + 1) with (Z.of_nat (off + 1)) by lia.
      replace (off + S (length bs'))%nat with (off + 1 + length bs')%nat by lia.
      destruct (decide (off + 1 <= length b)%nat) as [Ht|Ht]; cbn [and_then].
      - pose proof (IH Hne v bs' E (splice b off [x01]) (off + 1)%nat) as H2.
        unfold outcome in H2. rewrite length_splice in H2 by done.
        destruct (decide (off + 1 + length bs' <= length b)%nat).
        + rewrite H2. cbn [and_then].
          pose proof (splice_splice b off [x01] bs' Ht) as Hss.
          cbn [length] in Hss. rewrite Hss.
          do 2 f_equal. lia.
        + by apply and_then_None.
      - rewrite decide_False by lia. done. }
    destruct v; try (by apply Hsome).
    cbn [serial] in Hs. injection Hs as <-. cbn [encode]. by apply outcome_write.
  - destruct v; try done. rewrite serial_struct in Hs. rewrite encode_record.
    rewrite nonempty_records_struct in Hne.
    apply andb_true_iff in Hne as [Hnil Hnf].
    pose proof (agrees_fields props fs IH Hnf bs Hs b off 0 0) as H.
    assert (Hpre : fs = [] -> 0 + 0 = Z.of_nat off /\ (off <= length b)%nat)
      by (by intros ->).
    specialize (H Hpre). unfold outcome.
    destruct (decide (off + length bs <= length b)%nat).
    + destruct H as (last & -> & Hlast). cbn [and_then]. do 2 f_equal. lia.
    + by apply and_then_None.
  - destruct v; try done. pose proof Hs as Hser. cbn [serial] in Hs.
    rewrite encode_vec.
    destruct (decide (count_ok (length items))) as [Hc|]; [|done].
    fold (serial_items l items) in Hs.
    destruct (serial_items l items) as [bs'|] eqn:Ei; [|done].
    assert (bs = le_bytes 4 (Z.of_nat (length items)) ++ bs') as ->
      by (cbn [rbind] in Hs; congruence).
    clear Hs. unfold outcome. rewrite length_app, length_le_bytes, Nat.add_assoc.
    destruct (decide (off + 4 <= length b)%nat) as [H4|H4].
    + pose proof (agrees_items l items IH Hne bs' Ei b off 0%nat) as H.
      rewrite !Nat.add_0_r in H. change (Z.of_nat 0) with 0 in H.
      specialize (H H4).
      destruct (decide (off + 4 + length bs' <= length b)%nat) as [Hfit|Hover].
      * rewrite H. cbn [and_then].
        rewrite write_at_nat, length_splice, length_le_bytes by done.
        rewrite decide_True by lia. cbn [and_then].
        rewrite (splice_under b off 4) by (by rewrite ?length_le_bytes).
        pose proof (spans_all (LVec l) (VArray items) _ Hser (take off b)
                      (drop (off + length (le_bytes 4 (Z.of_nat (length items))
                                             ++ bs')) b)) as Hsp.
        rewrite length_take, Nat.min_l in Hsp by lia.
        unfold splice. rewrite Hsp. do 2 f_equal. lia.
      * by apply and_then_None.
    + rewrite decide_False by lia. destruct items as [|x vs].
      * cbn [seq_encode and_then length].
        rewrite write_at_nat, length_le_bytes, decide_False by lia. done.
      * cbn [serial_items] in Ei.
        destruct (serial l x) as [b1|] eqn:Ex; [|done].
        cbn [seq_encode]. do 2 apply and_then_None.
        replace (Z.of_nat off + 4 + 0) with (Z.of_nat (off + 4)) by lia.
        pose proof (IH Hne x b1 Ex b (off + 4)%nat) as H1. unfold outcome in H1.
        by rewrite decide_False in H1 by lia.
Qed.

(* --------------------------------------------------------------------- *)
(** *** The builder on the library's encoder                              *)
(* --------------------------------------------------------------------- *)

Lemma slice_to_payload (b : Buffer) (n : nat) :
  slice_to b (1 + Z.of_nat n) = Buffer_slice b 0 (1 + n).
Proof.
  unfold slice_to, Buffer_slice.
  rewrite decide_False by lia. rewrite drop_0, Nat.sub_0_r.
  f_equal. lia.
Qed.

Section Builder.
Variable Fields : Type.
Variable paramsLayout : Layout.
Variable toEncodable : Fields -> Value.

(** [AddLiquidity] as it runs on the library's encoder; [None] is a thrown
    exception. *)
Definition AddLiquidity (args : AddLiquidityArgs Fields)
    (accounts : AddLiquidityAccounts) (programId : option PublicKey)
  : option TransactionInstruction :=
  let programId := default PROGRAM_ID programId in
  let keys := AddLiquidity_keys accounts in
  let identifier := Buffer_from [1] in
  let buffer := Buffer_alloc 1000 in
  match encode (layout paramsLayout) (encodable Fields toEncodable args) buffer 0 with
  | (Some len, buffer) =>
      let data := slice_to (Buffer_concat [identifier; buffer]) (1 + len) in
      Some {| keys := keys; programId := programId; data := data |}
  | (None, _) => None
  end.

(** On a record that has every field of the schema, with values the
    primitives take, the builder returns the discriminator and the whole
    encoding when that fits the scratch buffer, and throws when it does
    not. *)
Lemma AddLiquidity_cases args accounts pid bytes :
  nonempty_records paramsLayout = true ->
  serial (layout paramsLayout) (encodable Fields toEncodable args) = Ok bytes ->
  AddLiquidity args accounts pid =
  if decide (length bytes <= 1000)%nat
  then Some (assembled accounts pid bytes)
  else None.
Proof.
  intros Hne Hs. unfold AddLiquidity.
  assert (Hne' : nonempty_records (layout paramsLayout) = true).
  { unfold layout. rewrite nonempty_records_struct. cbn [nonempty_fields].
    by rewrite Hne. }
  pose proof (agrees_all (layout paramsLayout) Hne' _ _ Hs (Buffer_alloc 1000) 0%nat)
    as H.
  unfold outcome in H. change (Z.of_nat 0) with 0 in H.
  replace (length (Buffer_alloc 1000)) with 1000%nat in H
    by (unfold Buffer_alloc; by rewrite length_replicate).
  cbn [Nat.add] in H.
  destruct (decide (length bytes <= 1000)%nat).
  - rewrite H. by rewrite slice_to_payload, trim_scratch.
  - by destruct (encode _ _ _ _) as [[len|] b'].
Qed.
End Builder.

End Js.

(* ===================================================================== *)
(** ** The least width of an encoding                                     *)
(* ===================================================================== *)

(** The smallest number of bytes an encoding under [l] can have. *)
Fixpoint min_span (l : Layout) : nat :=
  match l with
  | LUInt w | LInt w => w
  | LBool => 1%nat
  | LBlob n => n
  | LBytes => 4%nat
  | LOption _ => 1%nat
  | LStruct fields =>
      (fix go (fs : list (string * Layout)) : nat :=
         match fs with
         | [] => 0%nat
         | (_, lf) :: fs' => (min_span lf + go fs')%nat
         end) fields
  | LVec _ => 4%nat
  end.

Definition min_span_fields :=
  fix go (fs : list (string * Layout)) : nat :=
    match fs with
    | [] => 0%nat
    | (_, lf) :: fs' => (min_span lf + go fs')%nat
    end.

Definition at_least (l : Layout) : Prop :=
  forall v bs, serial l v = Ok bs -> (min_span l <= length bs)%nat.

Lemma at_least_fields props fs :
  Forall (fun nl => at_least nl.2) fs ->
  forall bs, serial_fields props fs = Ok bs ->
    (min_span_fields fs <= length bs)%nat.
Proof.
  induction 1 as [|[name lf] fs Hlf _ IH]; intros bs Hb.
  - cbn [min_span_fields]. lia.
  - cbn [min_span_fields serial_fields] in Hb |- *.
    destruct (prop name props) as [fv|]; [|done].
    destruct (serial lf fv) as [b1|] eqn:E1; [|done].
    destruct (serial_fields props fs) as [b2|] eqn:E2; [|done].
    cbn [rbind] in Hb. injection Hb as <-. rewrite length_app.
    pose proof (Hlf fv b1 E1). pose proof (IH b2 eq_refl). cbn [snd] in *. lia.
Qed.

Lemma at_least_all (l : Layout) : at_least l.
Proof.
  induction l as [w|w| |n| |l IH|fs IH|l IH] using Layout_nested_ind;
    intros v bs Hs.
  - destruct v; try done. cbn [serial min_span] in *.
    destruct (decide _); [|done].
    assert (bs = le_bytes w z) as -> by congruence.
    by rewrite length_le_bytes.
  - destruct v; try done. cbn [serial min_span] in *.
    destruct (decide _); [|done].
    assert (bs = le_bytes w (z mod width_range w)) as -> by congruence.
    by rewrite length_le_bytes.
  - destruct v; try done. cbn [serial min_span] in *. by injection Hs as <-.
  - destruct v; try done. cbn [serial min_span] in *.
    destruct (decide _) as [Hn|]; [|done]. injection Hs as <-. lia.
  - destruct v; try done. cbn [serial min_span] in *.
    destruct (decide _); [|done].
    assert (bs = le_bytes 4 (Z.of_nat (length bs0)) ++ bs0) as -> by congruence.
    rewrite length_app, length_le_bytes. lia.
  - assert (Hsome : forall bs,
              (let! bs' := serial l v in Ok (x01 :: bs')) = Ok bs ->
              (1 <= length bs)%nat).
    { intros bs1 H1. destruct (serial l v) as [bs'|]; [|done].
      injection H1 as <-. cbn [length]. lia. }
    destruct v; try (by apply Hsome).
    cbn [serial] in Hs. by injection Hs as <-.
  - destruct v; try done. rewrite serial_struct in Hs.
    by apply (at_least_fields props fs IH).
  - destruct v; try done. cbn [serial min_span] in *.
    destruct (decide _); [|done].
    fold (serial_items l items) in Hs.
    destruct (serial_items l items) as [bs'|]; [|done].
    assert (bs = le_bytes 4 (Z.of_nat (length items)) ++ bs') as ->
      by (cbn [rbind] in Hs; congruence).
    rewrite length_app, length_le_bytes. lia.
Qed.

(* ===================================================================== *)
(** ** The properties of the specification                                *)
(* ===================================================================== *)

Definition accounts_without_quoteVault : AddLiquidityAccounts :=
  delete "quoteVault"%string sample_accounts.

(** A store holding the sample arguments: the args object at 0, the record
    it refers to at 1, the accounts object at 2. *)
Definition sample_store : list (Store.cell AddLiquidityIxParamsFields) :=
  [ Store.CArgs _ 1%nat; Store.CFields _ (params sample_args);
    Store.CAccounts _ sample_accounts ].

Definition sample_build_store :=
  Store.AddLiquidity AddLiquidityIxParamsFields AddLiquidityIxParams_layout
    AddLiquidityIxParams_toEncodable.

Section Claims.
Variable Fields : Type.
Variable paramsLayout : Layout.
Variable toEncodable : Fields -> Value.

Local Abbreviation layout := (layout paramsLayout).
Local Abbreviation encodable := (encodable Fields toEncodable).
Local Abbreviation AddLiquidity_scratch :=
  (AddLiquidity_scratch Fields paramsLayout toEncodable).
Local Abbreviation AddLiquidity := (AddLiquidity Fields paramsLayout toEncodable).

(** C1. The [data] of an instruction returned by [AddLiquidity] is the
    one-byte discriminator [1] followed by the encoding of the params record
    and nothing else, so its length is one more than the encoded length; the
    same holds whatever the size of the scratch buffer; and for a record the
    layout accepts, every scratch buffer that can hold the encoding makes the
    builder return that instruction. *)
Theorem AddLiquidity_data_exact args accounts pid :
  (forall ix, AddLiquidity args accounts pid = Ok ix ->
     exists bytes, serial layout (encodable args) = Ok bytes /\
       data ix = Buffer_from [1] ++ bytes /\
       length (data ix) = (1 + length bytes)%nat) /\
  (forall size ix, AddLiquidity_scratch size args accounts pid = Ok ix ->
     exists bytes, serial layout (encodable args) = Ok bytes /\
       data ix = Buffer_from [1] ++ bytes /\
       length (data ix) = (1 + length bytes)%nat) /\
  (accepts layout (encodable args) = true ->
     exists bytes, serial layout (encodable args) = Ok bytes /\
       forall size, (length bytes <= size)%nat ->
         AddLiquidity_scratch size args accounts pid =
         Ok {| keys := AddLiquidity_keys accounts;
               programId := default PROGRAM_ID pid;
               data := Buffer_from [1] ++ bytes |}).
Proof.
  assert (H : forall size ix, AddLiquidity_scratch size args accounts pid = Ok ix ->
     exists bytes, serial layout (encodable args) = Ok bytes /\
       data ix = Buffer_from [1] ++ bytes /\
       length (data ix) = (1 + length bytes)%nat).
  { intros size ix Hix.
    destruct (AddLiquidity_scratch_Ok _ _ _ _ _ _ _ _ Hix) as (bytes & Hs & _ & ->).
    exists bytes. by repeat split. }
  split; [apply (H 1000%nat)|]. split; [apply H|].
  intros Hacc. destruct (roundtrips_all layout (encodable args) Hacc) as (bytes & Hs & _).
  exists bytes. split; [done|]. intros size Hfit.
  exact (AddLiquidity_scratch_fits _ _ _ _ _ _ _ _ Hs Hfit).
Qed.

(** C2. Under any layout, and so under the builder's [layout], decoding the
    bytes that encoding an accepted record produces gives the record back:
    from the bytes alone, and from any destination buffer [encode] wrote
    them into. *)
Theorem layout_roundtrip (l : Layout) (x : Value) :
  accepts l x = true ->
  exists bytes,
    serial l x = Ok bytes /\
    decode l bytes 0 = Ok (x, length bytes) /\
    forall (b : Buffer) (off : nat), (off + length bytes <= length b)%nat ->
      exists b', encode l x b off = (Ok (length bytes), b') /\
                 decode l b' off = Ok (x, length bytes) /\
                 Buffer_slice b' off (off + length bytes) = bytes.
Proof.
  intros Hacc. destruct (roundtrips_all l x Hacc) as (bytes & Hs & Hd).
  exists bytes. split; [done|]. split.
  - specialize (Hd [] []). by rewrite app_nil_r in Hd.
  - intros b off Hfit. exists (splice b off bytes).
    pose proof (encode_refines_all l x b off ltac:(lia)) as He.
    unfold encode_outcome in He. rewrite Hs, decide_True in He by done.
    split; [done|]. unfold splice.
    assert (Hlen : length (take off b) = off) by (rewrite length_take; lia).
    split.
    + specialize (Hd (take off b) (drop (off + length bytes) b)).
      by rewrite Hlen in Hd.
    + unfold Buffer_slice.
      rewrite drop_app_length' by done.
      replace (off + length bytes - off)%nat with (length bytes) by lia.
      by rewrite take_app_length.
Qed.

(** C3. The [keys] of a returned instruction list the accounts in the
    template's order, each with the template's flags; the flags do not depend
    on the binding, and two bindings that map the ten roles to the same
    addresses (whatever their insertion order or further properties) yield
    the same result. *)
Theorem AddLiquidity_keys_template_order args accounts pid ix :
  AddLiquidity args accounts pid = Ok ix ->
  keys ix = resolve AddLiquidity_template accounts /\
  (fun m => (isSigner m, isWritable m)) <$> keys ix =
    (fun t => (t.1.2, t.2)) <$> AddLiquidity_template /\
  (forall accounts',
     (forall role, role ∈ AddLiquidityAccounts_roles ->
        accounts' !! role = accounts !! role) ->
     AddLiquidity args accounts' pid = Ok ix) /\
  (forall entries entries' : list (string * PublicKey),
     NoDup entries.*1 -> entries ≡ₚ entries' ->
     AddLiquidity args (list_to_map entries) pid =
     AddLiquidity args (list_to_map entries') pid).
Proof.
  intros Hix.
  destruct (AddLiquidity_scratch_Ok _ _ _ _ _ _ _ _ Hix) as (bytes & Hs & Hfit & ->).
  split; [done|]. split; [done|]. split.
  - intros accounts' Hsame.
    rewrite AddLiquidity_unfold.
    rewrite (AddLiquidity_scratch_fits _ _ _ _ _ _ _ _ Hs Hfit).
    unfold assembled. do 2 f_equal. unfold AddLiquidity_keys.
    rewrite !Hsame; [done|..]; unfold AddLiquidityAccounts_roles; set_solver.
  - intros entries entries' Hnd Hperm.
    by rewrite (list_to_map_proper (M := gmap string) entries entries' Hnd Hperm).
Qed.

(** C4, as the code has it.  The builder does not validate the binding and
    never raises an error about a missing account: whether it returns or
    throws, and with which error, is the same for every binding; a returned
    instruction carries, at the position of a role the binding lacks, a meta
    whose [pubkey] is undefined, with the template's flags; and for a binding
    that is [complete], as the interface [AddLiquidityAccounts] requires,
    every meta has its key. *)
Theorem AddLiquidity_absent_role_undefined args accounts pid :
  (forall accounts' e,
     AddLiquidity args accounts pid = Throw e <->
     AddLiquidity args accounts' pid = Throw e) /\
  (forall ix i role signer writable,
     AddLiquidity args accounts pid = Ok ix ->
     AddLiquidity_template !! i = Some (role, signer, writable) ->
     accounts !! role = None ->
     keys ix !! i =
     Some {| pubkey := None; isSigner := signer; isWritable := writable |}) /\
  (forall ix,
     AddLiquidity args accounts pid = Ok ix ->
     complete accounts ->
     Forall (fun m => is_Some (pubkey m)) (keys ix)).
Proof.
  split; [|split].
  - intros accounts' e.
    rewrite !AddLiquidity_unfold, !AddLiquidity_scratch_unfold.
    by destruct (encode _ _ _ _) as [[len|e0] b'].
  - intros ix i role signer writable Hix Hi Hrole.
    destruct (AddLiquidity_scratch_Ok _ _ _ _ _ _ _ _ Hix) as (bytes & _ & _ & ->).
    cbn [keys assembled]. rewrite AddLiquidity_keys_resolve. unfold resolve.
    rewrite list_lookup_fmap, Hi. cbn [fmap option_fmap option_map fst snd].
    by rewrite Hrole.
  - intros ix Hix Hall.
    destruct (AddLiquidity_scratch_Ok _ _ _ _ _ _ _ _ Hix) as (bytes & _ & _ & ->).
    cbn [keys assembled]. unfold AddLiquidity_keys.
    repeat constructor; cbn [pubkey]; apply Hall;
      unfold AddLiquidityAccounts_roles; set_solver.
Qed.


(** C7. With the [programId] argument omitted the instruction targets
    [PROGRAM_ID]; with an address supplied it targets that address, and its
    [keys] and [data] are the same in both cases (as is the error, if the
    call throws).  Whenever the encoding of the record fits the scratch
    buffer both calls return: the one the instruction for [PROGRAM_ID], the
    other the same instruction for the supplied address. *)
Theorem AddLiquidity_programId_default args accounts (p : PublicKey) :
  PROGRAM_ID = "srAMMzfVHVAtgSJc8iH6CfKzuWuUTzLHVCE81QU1rgi"%string /\
  match AddLiquidity args accounts None, AddLiquidity args accounts (Some p) with
  | Ok ix0, Ok ix1 =>
      programId ix0 = PROGRAM_ID /\ programId ix1 = p /\
      keys ix1 = keys ix0 /\ data ix1 = data ix0
  | Throw e0, Throw e1 => e0 = e1
  | _, _ => False
  end /\
  (forall bytes,
     serial layout (encodable args) = Ok bytes -> (length bytes <= 1000)%nat ->
     AddLiquidity args accounts None =
       Ok {| keys := AddLiquidity_keys accounts;
             programId := PROGRAM_ID;
             data := Buffer_from [1] ++ bytes |} /\
     AddLiquidity args accounts (Some p) =
       Ok {| keys := AddLiquidity_keys accounts;
             programId := p;
             data := Buffer_from [1] ++ bytes |}).
Proof.
  split; [done|]. split.
  - rewrite !AddLiquidity_unfold, !AddLiquidity_scratch_unfold.
    by destruct (encode _ _ _ _) as [[len|e] b'].
  - intros bytes Hs Hfit. rewrite !AddLiquidity_unfold.
    by rewrite !(AddLiquidity_scratch_fits _ _ _ _ _ _ _ bytes Hs Hfit).
Qed.

(** C9. A returned instruction carries ten metas; the only signer is the one
    at position 3 ([trader]); the writable ones are those at positions 2, 4,
    5, 6, 7 and 8 ([pool], [lpPosition], [baseAccount], [quoteAccount],
    [baseVault], [quoteVault]). *)
Theorem AddLiquidity_keys_flags args accounts pid ix :
  AddLiquidity args accounts pid = Ok ix ->
  length (keys ix) = 10%nat /\
  positions isSigner (keys ix) = [3%nat] /\
  positions isWritable (keys ix) = [2; 4; 5; 6; 7; 8]%nat /\
  pubkey <$> keys ix = (fun role => accounts !! role) <$> AddLiquidityAccounts_roles /\
  (fun i => AddLiquidityAccounts_roles !! i) <$> positions isSigner (keys ix) =
    [Some "trader"%string] /\
  (fun i => AddLiquidityAccounts_roles !! i) <$> positions isWritable (keys ix) =
    [Some "pool"; Some "lpPosition"; Some "baseAccount"; Some "quoteAccount";
     Some "baseVault"; Some "quoteVault"]%string.
Proof.
  intros Hix.
  destruct (AddLiquidity_scratch_Ok _ _ _ _ _ _ _ _ Hix) as (bytes & _ & _ & ->).
  by repeat split.
Qed.

(** C10. The scratch buffer has 1000 bytes.  When the encoding of the params
    record has at most 1000 bytes, the encode into the scratch buffer
    succeeds and the builder returns the instruction carrying all of it;
    when it has more, the builder throws ([RangeError], from the write that
    leaves the buffer) and no shortened payload is returned. *)
Theorem AddLiquidity_scratch_limit args accounts pid bytes :
  serial layout (encodable args) = Ok bytes ->
  ((length bytes <= 1000)%nat ->
     (exists b', encode layout (encodable args) (Buffer_alloc 1000) 0 =
                 (Ok (length bytes), b')) /\
     AddLiquidity args accounts pid =
     Ok {| keys := AddLiquidity_keys accounts;
           programId := default PROGRAM_ID pid;
           data := Buffer_from [1] ++ bytes |}) /\
  ((1000 < length bytes)%nat ->
     (encode layout (encodable args) (Buffer_alloc 1000) 0).1 = Throw RangeError /\
     AddLiquidity args accounts pid = Throw RangeError).
Proof.
  intros Hs.
  pose proof (encode_refines_all layout (encodable args) (Buffer_alloc 1000) 0%nat
                ltac:(lia)) as He.
  unfold encode_outcome in He. rewrite Hs in He.
  replace (length (Buffer_alloc 1000)) with 1000%nat in He
    by (unfold Buffer_alloc; by rewrite length_replicate).
  cbn [Nat.add] in He. split; intros Hlen.
  - rewrite decide_True in He by done. split; [by eexists|].
    exact (AddLiquidity_scratch_fits _ _ _ _ _ _ _ _ Hs Hlen).
  - rewrite decide_False in He by lia. split; [done|].
    exact (AddLiquidity_scratch_overrun _ _ _ _ _ _ _ _ Hs Hlen).
Qed.

Local Abbreviation heap := (list (Store.cell Fields)).
Local Abbreviation run := (Store.AddLiquidity Fields paramsLayout toEncodable).
Local Abbreviation inputs_at := (Store.inputs_at Fields).
Local Abbreviation observe := (Store.observe Fields).

(** C6. What a call returns is a function of the contents of its arguments
    alone: on any two stores, at any locations, calls whose arguments hold
    the same params record and the same accounts and that receive the same
    [programId] are observed to return equal instructions (or throw the same
    error), namely what the builder on values computes; and a call made
    after any other call of the builder observes what it would have observed
    without it. *)
Theorem AddLiquidity_stateless (h1 h2 : heap) args1 accounts1 args2 accounts2
    (f : Fields) (a : gmap string PublicKey) pid :
  inputs_at h1 args1 accounts1 f a ->
  inputs_at h2 args2 accounts2 f a ->
  observe (run args1 accounts1 pid h1) = observe (run args2 accounts2 pid h2) /\
  observe (run args1 accounts1 pid h1) =
    Some (AddLiquidity (mkAddLiquidityArgs f) a pid) /\
  (forall args' accounts' pid',
     observe (run args1 accounts1 pid (run args' accounts' pid' h1).2) =
     observe (run args1 accounts1 pid h1)).
Proof.
  intros H1 H2.
  rewrite (Store.AddLiquidity_observe _ _ _ h1 _ _ _ _ pid H1).
  rewrite (Store.AddLiquidity_observe _ _ _ h2 _ _ _ _ pid H2).
  split; [done|]. split; [done|].
  intros args' accounts' pid'.
  destruct (Store.framed_AddLiquidity _ paramsLayout toEncodable h1
              args' accounts' pid' h1 ltac:(done)) as [Hpre _].
  apply Store.AddLiquidity_observe.
  by apply (Store.inputs_at_prefix _ h1).
Qed.

(** C8. A call leaves every cell of the store it started from as it was, in
    particular the args object, the params record it refers to and the
    accounts object, whether the call returns or throws; and the instruction
    it returns, the [keys] array, each meta and the [data] buffer are cells
    allocated by the call. *)
Theorem AddLiquidity_inputs_untouched (h : heap) args accounts pid :
  (forall l c, h !! l = Some c -> (run args accounts pid h).2 !! l = Some c) /\
  (forall f a, inputs_at h args accounts f a ->
     inputs_at (run args accounts pid h).2 args accounts f a /\
     forall l, (run args accounts pid h).1 = Ok l ->
       Store.built_fresh Fields h (run args accounts pid h).2 l).
Proof.
  destruct (Store.framed_AddLiquidity _ paramsLayout toEncodable h
              args accounts pid h ltac:(done)) as [Hpre _].
  split.
  - intros l c Hl. by apply (Store.prefix_lookup_Some' _ h).
  - intros f a Hin. split.
    + by apply (Store.inputs_at_prefix _ h).
    + intros l Hl. by apply (Store.AddLiquidity_built_fresh _ _ _ h _ _ f a).
Qed.

End Claims.

(* ===================================================================== *)
(** ** The properties at concrete inputs                                  *)
(* ===================================================================== *)

Definition sample_bytes : list byte :=
  Buffer_from [100;0;0;0;0;0;0;0; 50;0;0;0;0;0;0;0; 1; 2;1;0;0;0;0;0;0].

Definition sample_instruction : TransactionInstruction :=
  {| keys := AddLiquidity_keys sample_accounts;
     programId := PROGRAM_ID;
     data := Buffer_from [1] ++ sample_bytes |}.

Definition sample_encodable : Value :=
  encodable AddLiquidityIxParamsFields AddLiquidityIxParams_toEncodable sample_args.

(** The same arguments at other locations of another store. *)
Definition sample_store' : list (Store.cell AddLiquidityIxParamsFields) :=
  [ Store.CAccounts _ sample_accounts; Store.CBuffer _ [x01];
    Store.CFields _ (params sample_args); Store.CArgs _ 2%nat ].

Lemma AddLiquidity_data_exact_witness :
  sample_build sample_args sample_accounts None = Ok sample_instruction /\
  exists bytes,
    serial (layout AddLiquidityIxParams_layout) sample_encodable = Ok bytes /\
    data sample_instruction = Buffer_from [1] ++ bytes /\
    length (data sample_instruction) = (1 + length bytes)%nat.
Proof.
  split; [vm_compute; reflexivity|].
  apply (proj1 (AddLiquidity_data_exact AddLiquidityIxParamsFields
                  AddLiquidityIxParams_layout AddLiquidityIxParams_toEncodable
                  sample_args sample_accounts None)).
  vm_compute; reflexivity.
Defined.

Lemma layout_roundtrip_witness :
  accepts (layout AddLiquidityIxParams_layout) sample_encodable = true /\
  exists bytes,
    serial (layout AddLiquidityIxParams_layout) sample_encodable = Ok bytes /\
    decode (layout AddLiquidityIxParams_layout) bytes 0 =
      Ok (sample_encodable, length bytes).
Proof.
  split; [vm_compute; reflexivity|].
  destruct (layout_roundtrip (layout AddLiquidityIxParams_layout) sample_encodable)
    as (bytes & Hs & Hd & _); [vm_compute; reflexivity|].
  exists bytes. split; [exact Hs|exact Hd].
Defined.

Lemma AddLiquidity_keys_template_order_witness :
  sample_build sample_args sample_accounts None = Ok sample_instruction /\
  keys sample_instruction = resolve AddLiquidity_template sample_accounts.
Proof.
  split; [vm_compute; reflexivity|].
  apply (AddLiquidity_keys_template_order AddLiquidityIxParamsFields
           AddLiquidityIxParams_layout AddLiquidityIxParams_toEncodable
           sample_args sample_accounts None sample_instruction).
  vm_compute; reflexivity.
Defined.

(** The claim C4 fails: a binding without [quoteVault] is not rejected; the
    builder returns an instruction whose ninth meta has no key. *)
Lemma AddLiquidity_missing_quoteVault_counterexample :
  "quoteVault"%string ∈ AddLiquidityAccounts_roles /\
  accounts_without_quoteVault !! "quoteVault"%string = None /\
  (forall e, sample_build sample_args accounts_without_quoteVault None <> Throw e) /\
  exists ix,
    sample_build sample_args accounts_without_quoteVault None = Ok ix /\
    keys ix !! 8%nat =
      Some {| pubkey := None; isSigner := false; isWritable := true |}.
Proof.
  split; [unfold AddLiquidityAccounts_roles; set_solver|].
  split; [vm_compute; reflexivity|].
  assert (H : sample_build sample_args accounts_without_quoteVault None =
              Ok {| keys := AddLiquidity_keys accounts_without_quoteVault;
                    programId := PROGRAM_ID;
                    data := Buffer_from [1] ++ sample_bytes |}).
  { vm_compute; reflexivity. }
  split.
  - intros e. rewrite H. discriminate.
  - eexists. split; [exact H|]. vm_compute; reflexivity.
Qed.

Lemma AddLiquidity_absent_role_undefined_witness :
  AddLiquidity_template !! 8%nat = Some ("quoteVault"%string, false, true) /\
  accounts_without_quoteVault !! "quoteVault"%string = None /\
  sample_build sample_args accounts_without_quoteVault None =
    Ok {| keys := AddLiquidity_keys accounts_without_quoteVault;
          programId := PROGRAM_ID;
          data := Buffer_from [1] ++ sample_bytes |} /\
  AddLiquidity_keys accounts_without_quoteVault !! 8%nat =
    Some {| pubkey := None; isSigner := false; isWritable := true |}.
Proof.
  split; [reflexivity|]. split; [vm_compute; reflexivity|].
  split; [vm_compute; reflexivity|].
  apply (proj1 (proj2 (AddLiquidity_absent_role_undefined
           AddLiquidityIxParamsFields
           AddLiquidityIxParams_layout AddLiquidityIxParams_toEncodable
           sample_args accounts_without_quoteVault None))
         {| keys := AddLiquidity_keys accounts_without_quoteVault;
            programId := PROGRAM_ID;
            data := Buffer_from [1] ++ sample_bytes |}
         8%nat "quoteVault"%string false true);
    [vm_compute; reflexivity|reflexivity|vm_compute; reflexivity].
Defined.

Lemma AddLiquidity_stateless_witness :
  Store.observe _ (sample_build_store 0%nat 2%nat None sample_store) =
  Store.observe _ (sample_build_store 3%nat 0%nat None sample_store').
Proof.
  apply (AddLiquidity_stateless AddLiquidityIxParamsFields
           AddLiquidityIxParams_layout AddLiquidityIxParams_toEncodable
           sample_store sample_store' 0%nat 2%nat 3%nat 0%nat
           (params sample_args) sample_accounts None).
  - exists 1%nat. repeat split; reflexivity.
  - exists 2%nat. repeat split; reflexivity.
Defined.

Lemma AddLiquidity_inputs_untouched_witness :
  (sample_build_store 0%nat 2%nat None sample_store).2 !! 2%nat =
  Some (Store.CAccounts _ sample_accounts).
Proof.
  apply (proj1 (AddLiquidity_inputs_untouched AddLiquidityIxParamsFields
                  AddLiquidityIxParams_layout AddLiquidityIxParams_toEncodable
                  sample_store 0%nat 2%nat None)).
  reflexivity.
Defined.

Lemma AddLiquidity_keys_flags_witness :
  sample_build sample_args sample_accounts None = Ok sample_instruction /\
  length (keys sample_instruction) = 10%nat /\
  positions isSigner (keys sample_instruction) = [3%nat] /\
  positions isWritable (keys sample_instruction) = [2; 4; 5; 6; 7; 8]%nat.
Proof.
  split; [vm_compute; reflexivity|].
  destruct (AddLiquidity_keys_flags AddLiquidityIxParamsFields
              AddLiquidityIxParams_layout AddLiquidityIxParams_toEncodable
              sample_args sample_accounts None sample_instruction)
    as (Hlen & Hs & Hw & _); [vm_compute; reflexivity|].
  split; [exact Hlen|]. split; [exact Hs|exact Hw].
Defined.

Lemma AddLiquidity_scratch_limit_witness :
  serial (layout AddLiquidityIxParams_layout) sample_encodable = Ok sample_bytes /\
  (length sample_bytes <= 1000)%nat /\
  sample_build sample_args sample_accounts None = Ok sample_instruction.
Proof.
  split; [vm_compute; reflexivity|]. split; [vm_compute; lia|].
  apply (proj1 (AddLiquidity_scratch_limit AddLiquidityIxParamsFields
                  AddLiquidityIxParams_layout AddLiquidityIxParams_toEncodable
                  sample_args sample_accounts None sample_bytes
                  ltac:(vm_compute; reflexivity))).
  vm_compute; lia.
Defined.

(** A record too long for the scratch buffer: 1001 bytes under a
    fixed-length byte-array layout.  The builder throws. *)
Example AddLiquidity_oversized_throws :
  AddLiquidity (list byte) (LBlob 1001) VBytes
    (mkAddLiquidityArgs (replicate 1001 x00)) sample_accounts None =
  Throw RangeError.
Proof. vm_compute; reflexivity. Qed.

(** The scenario of section 8: [{price: 100, size: 50, side: Bid}] under
    (u64 price, u64 size, u8 side tag). *)
Example serial_order_scenario :
  serial (LStruct [("price", u64); ("size", u64); ("side", u8)]%string)
    (VRecord [("price", VNum 100); ("size", VNum 50); ("side", VNum 0)]%string) =
  Ok (Buffer_from [100;0;0;0;0;0;0;0; 50;0;0;0;0;0;0;0; 0]).
Proof. vm_compute; reflexivity. Qed.

(** A failing [encode] has written the fields before the failing one: the
    destination is left partly written, and only the error is returned. *)
Example encode_partial_write :
  encode (LStruct [("a", u8); ("b", u8)]%string)
    (VRecord [("a", VNum 7); ("b", VNum 300)]%string) (Buffer_alloc 2) 0 =
  (Throw EncodingError, Buffer_from [7; 0]).
Proof. vm_compute; reflexivity. Qed.

(* --------------------------------------------------------------------- *)
(** *** A record that lacks a field                                       *)
(* --------------------------------------------------------------------- *)

(** The parameters as a JavaScript caller can pass them: the record is any
    object.  [toEncodable] (declared in [../types]) copies the three
    properties by name; a property the object lacks is [undefined] in the
    copy, which the library treats as absent. *)
Definition AddLiquidityIxParams_toEncodable_untyped
    (fields : list (string * Value)) : Value :=
  VRecord
    (omap (fun name => pair name <$> prop name fields)
       ["desiredBaseAmountIn"; "desiredQuoteAmountIn"; "initialLpShares"]%string).

Definition untyped_build :=
  Js.AddLiquidity (list (string * Value)) AddLiquidityIxParams_layout
    AddLiquidityIxParams_toEncodable_untyped.

Definition args_without_initialLpShares
  : AddLiquidityArgs (list (string * Value)) :=
  mkAddLiquidityArgs
    [("desiredBaseAmountIn", VNum 100); ("desiredQuoteAmountIn", VNum 50)]%string.

Definition args_without_desiredQuoteAmountIn
  : AddLiquidityArgs (list (string * Value)) :=
  mkAddLiquidityArgs
    [("desiredBaseAmountIn", VNum 100); ("initialLpShares", VNum 258)]%string.


(** A record without [desiredQuoteAmountIn]: the library leaves the eight
    bytes of the amount as the scratch buffer had them, all zero, and the
    builder returns a payload of the full length that reads as an amount
    of 0. *)
Example AddLiquidity_skipped_amount_scenario :
  data <$> untyped_build args_without_desiredQuoteAmountIn sample_accounts None =
  Some (Buffer_from [1; 100;0;0;0;0;0;0;0; 0;0;0;0;0;0;0;0; 1; 2;1;0;0;0;0;0;0]).
Proof. vm_compute; reflexivity. Qed.

(** An empty record reports [- firstOffset] bytes, which is why the layouts
    of the agreement above are those in which every record has a field. *)
Example Js_empty_record_scenario :
  Js.encode (LStruct []) (VRecord []) (Buffer_alloc 8) 3 =
  (Some (-3), Buffer_alloc 8).
Proof. vm_compute; reflexivity. Qed.


Lemma AddLiquidity_programId_default_witness :
  serial (layout AddLiquidityIxParams_layout) sample_encodable = Ok sample_bytes /\
  (length sample_bytes <= 1000)%nat /\
  sample_build sample_args sample_accounts None = Ok sample_instruction /\
  sample_build sample_args sample_accounts (Some "Alternate"%string) =
    Ok {| keys := keys sample_instruction;
          programId := "Alternate"%string;
          data := data sample_instruction |}.
Proof.
  split; [vm_compute; reflexivity|]. split; [vm_compute; lia|].
  apply (proj2 (proj2 (AddLiquidity_programId_default AddLiquidityIxParamsFields
                         AddLiquidityIxParams_layout
                         AddLiquidityIxParams_toEncodable
                         sample_args sample_accounts "Alternate"%string))
           sample_bytes).
  - vm_compute; reflexivity.
  - vm_compute; lia.
Defined.

(* ===================================================================== *)
(** ** Further properties of the builder's payload                        *)
(* ===================================================================== *)

(** The one-field struct of [layout] adds no byte of its own. *)
Lemma serial_layout_params (paramsLayout : Layout) (v : Value) :
  serial (layout paramsLayout) (VRecord [("params"%string, v)]) =
  serial paramsLayout v.
Proof.
  unfold layout. rewrite serial_struct. cbn [serial_fields prop].
  rewrite decide_True by done.
  destruct (serial paramsLayout v); cbn [rbind]; [|done].
  by rewrite app_nil_r.
Qed.

Section Payload.
Variable Fields : Type.
Variable paramsLayout : Layout.
Variable toEncodable : Fields -> Value.

Local Abbreviation layout := (layout paramsLayout).
Local Abbreviation encodable := (encodable Fields toEncodable).
Local Abbreviation AddLiquidity := (AddLiquidity Fields paramsLayout toEncodable).

(** What a returning call returns, when the record is one the layout
    accepts. *)
Lemma AddLiquidity_accepted_Ok args accounts pid ix :
  accepts layout (encodable args) = true ->
  AddLiquidity args accounts pid = Ok ix ->
  exists bytes,
    serial layout (encodable args) = Ok bytes /\
    data ix = [x01] ++ bytes /\
    forall pre post,
      decode layout (pre ++ bytes ++ post) (length pre) =
      Ok (encodable args, length bytes).
Proof.
  intros Hacc Hix. rewrite AddLiquidity_unfold in Hix.
  destruct (AddLiquidity_scratch_Ok _ _ _ _ _ _ _ _ Hix) as (bytes & Hs & _ & ->).
  destruct (roundtrips_all layout (encodable args) Hacc) as (bytes' & Hs' & Hd).
  rewrite Hs in Hs'. injection Hs' as <-.
  exists bytes. by repeat split.
Qed.


(** X2. Reading the payload of a returned instruction back with the same
    [layout], from offset 1 (or from offset 0 once the first byte is
    dropped), yields the record that was encoded and consumes the whole
    rest of the payload; bytes appended after the payload do not change
    what is read. *)
Theorem AddLiquidity_payload_decodes args accounts pid ix :
  accepts layout (encodable args) = true ->
  AddLiquidity args accounts pid = Ok ix ->
  decode layout (data ix) 1 = Ok (encodable args, (length (data ix) - 1)%nat) /\
  decode layout (drop 1 (data ix)) 0 =
    Ok (encodable args, (length (data ix) - 1)%nat) /\
  forall post,
    decode layout (data ix ++ post) 1 =
    Ok (encodable args, (length (data ix) - 1)%nat).
Proof.
  intros Hacc Hix.
  destruct (AddLiquidity_accepted_Ok _ _ _ _ Hacc Hix) as (bytes & _ & -> & Hd).
  rewrite length_app. cbn [length Nat.add Nat.sub]. rewrite Nat.sub_0_r.
  split; [|split].
  - specialize (Hd [x01] []). by rewrite app_nil_r in Hd.
  - specialize (Hd [] []). by rewrite app_nil_r in Hd.
  - intros post. rewrite <- app_assoc. exact (Hd [x01] post).
Qed.

(** X3. Payloads are unambiguous: when the payload of one returned
    instruction is a prefix of the payload of another (in particular when
    the two are equal), the two calls encoded the same record and the
    payloads are equal. *)
Theorem AddLiquidity_payload_prefix_free
    args1 accounts1 pid1 ix1 args2 accounts2 pid2 ix2 :
  accepts layout (encodable args1) = true ->
  accepts layout (encodable args2) = true ->
  AddLiquidity args1 accounts1 pid1 = Ok ix1 ->
  AddLiquidity args2 accounts2 pid2 = Ok ix2 ->
  data ix1 `prefix_of` data ix2 ->
  toEncodable (params args1) = toEncodable (params args2) /\
  data ix1 = data ix2.
Proof.
  intros Hacc1 Hacc2 Hix1 Hix2 [rest Hpre].
  destruct (AddLiquidity_accepted_Ok _ _ _ _ Hacc1 Hix1) as (bs1 & Hs1 & E1 & Hd1).
  destruct (AddLiquidity_accepted_Ok _ _ _ _ Hacc2 Hix2) as (bs2 & Hs2 & E2 & Hd2).
  rewrite E1, E2 in Hpre |- *. rewrite <- app_assoc in Hpre.
  apply app_inv_head in Hpre. subst bs2.
  specialize (Hd1 [] rest). specialize (Hd2 [] []).
  rewrite app_nil_r in Hd2. cbn [app] in Hd1, Hd2.
  rewrite Hd1 in Hd2. injection Hd2 as Hv Hlen.
  split; [done|].
  rewrite length_app in Hlen. destruct rest; [|simpl in Hlen; lia].
  by rewrite app_nil_r.
Qed.

End Payload.

(* ===================================================================== *)
(** ** Further properties of the builder on a store                       *)
(* ===================================================================== *)

Section Sharing.
Variable Fields : Type.
Variable paramsLayout : Layout.
Variable toEncodable : Fields -> Value.

Local Abbreviation heap := (list (Store.cell Fields)).
Local Abbreviation run := (Store.AddLiquidity Fields paramsLayout toEncodable).
Local Abbreviation inputs_at := (Store.inputs_at Fields).
Local Abbreviation instruction_at := (Store.instruction_at Fields).

(** The cells a call allocates for an instruction: the instruction object,
    its [keys] array, its [data] buffer and the meta records the array
    lists.  The [PublicKey] objects the metas and the instruction refer to
    are the caller's; the store holds them by value and they are no part of
    the footprint. *)
Definition footprint (h : heap) (l : Store.loc) : list Store.loc :=
  match h !! l with
  | Some (Store.CInstruction _ k p d) =>
      match h !! k with
      | Some (Store.CArray _ ms) => l :: k :: d :: ms
      | _ => [l; k; d]
      end
  | _ => []
  end.

Lemma footprint_ext (h ext : heap) i k d p js :
  ext !! i = Some (Store.CInstruction _ (length h + k)%nat p (length h + d)%nat) ->
  ext !! k = Some (Store.CArray _ ((fun j => length h + j)%nat <$> js)) ->
  footprint (h ++ ext) (length h + i)%nat =
  (fun j => length h + j)%nat <$> (i :: k :: d :: js).
Proof.
  intros Hi Hk. unfold footprint.
  rewrite Store.lookup_ext, Hi. cbn beta iota.
  by rewrite Store.lookup_ext, Hk.
Qed.

(** The store after a returning call, and the reference it returns. *)
Lemma run_returns (h : heap) args accounts f a pid l :
  inputs_at h args accounts f a ->
  (run args accounts pid h).1 = Ok l ->
  exists len b',
    l = (length h + 17)%nat /\
    (run args accounts pid h).2 =
    h ++ Store.cells_encoded Fields toEncodable h a b' f ++
         Store.cells_result Fields h (default PROGRAM_ID pid) len b'.
Proof.
  intros Hin. rewrite (Store.AddLiquidity_run _ _ _ h args accounts f a pid Hin).
  destruct (encode _ _ _ _) as [[len|e] b']; [|done].
  cbn [fst snd]. intros [= <-]. by exists len, b'.
Qed.

(** X6. Two calls made one after the other allocate their results apart:
    the instruction object, the [keys] array, the [data] buffer and the ten
    meta records of the one are thirteen cells distinct from the thirteen of
    the other, none of which existed before the first call, and the second
    call leaves the first instruction as it was.  (The [PublicKey] objects
    they refer to are the caller's and are not copied; the statement does
    not concern them.) *)
Theorem AddLiquidity_results_disjoint (h : heap)
    args1 accounts1 f1 a1 pid1 args2 accounts2 f2 a2 pid2 l1 l2 :
  inputs_at h args1 accounts1 f1 a1 ->
  inputs_at h args2 accounts2 f2 a2 ->
  (run args1 accounts1 pid1 h).1 = Ok l1 ->
  (run args2 accounts2 pid2 (run args1 accounts1 pid1 h).2).1 = Ok l2 ->
  let h1 := (run args1 accounts1 pid1 h).2 in
  let h2 := (run args2 accounts2 pid2 h1).2 in
  NoDup (footprint h2 l1 ++ footprint h2 l2) /\
  length (footprint h2 l1) = 13%nat /\ length (footprint h2 l2) = 13%nat /\
  Forall (fun l => (length h <= l)%nat) (footprint h2 l1 ++ footprint h2 l2) /\
  instruction_at h2 l1 = instruction_at h1 l1 /\
  is_Some (instruction_at h1 l1).
Proof.
  intros Hin1 Hin2 Hl1 Hl2.
  destruct (run_returns h _ _ _ _ _ _ Hin1 Hl1) as (len1 & b1 & -> & E1).
  cbn zeta. rewrite E1 in Hl2 |- *.
  set (C1 := Store.cells_encoded Fields toEncodable h a1 b1 f1 ++
             Store.cells_result Fields h (default PROGRAM_ID pid1) len1 b1) in *.
  assert (Hlen1 : length (h ++ C1) = (length h + 18)%nat)
    by (by rewrite length_app).
  assert (Hin2' : inputs_at (h ++ C1) args2 accounts2 f2 a2)
    by (apply (Store.inputs_at_prefix _ h); [by apply prefix_app_r|done]).
  destruct (run_returns (h ++ C1) _ _ _ _ _ _ Hin2' Hl2) as (len2 & b2 & -> & E2).
  rewrite E2.
  set (C2 := Store.cells_encoded Fields toEncodable (h ++ C1) a2 b2 f2 ++
             Store.cells_result Fields (h ++ C1) (default PROGRAM_ID pid2) len2 b2).
  assert (F2 : footprint ((h ++ C1) ++ C2) (length (h ++ C1) + 17)%nat =
               (fun j => length (h ++ C1) + j)%nat <$>
               (17 :: 10 :: 16 :: seq 0 10)%nat)
    by (by apply (footprint_ext (h ++ C1) C2 17 10 16 (default PROGRAM_ID pid2))).
  assert (F1 : footprint ((h ++ C1) ++ C2) (length h + 17)%nat =
               (fun j => length h + j)%nat <$> (17 :: 10 :: 16 :: seq 0 10)%nat).
  { rewrite <- app_assoc.
    by apply (footprint_ext h (C1 ++ C2) 17 10 16 (default PROGRAM_ID pid1)). }
  assert (F2' : footprint ((h ++ C1) ++ C2) (length (h ++ C1) + 17)%nat =
                (fun j => length h + j)%nat <$>
                ((fun j => 18 + j)%nat <$> (17 :: 10 :: 16 :: seq 0 10)%nat)).
  { rewrite F2, <- list_fmap_compose. apply list_fmap_ext.
    intros _ j _. cbn [compose]. rewrite Hlen1. lia. }
  rewrite F1, F2', <- fmap_app.
  split; [|split; [|split; [|split; [|split]]]].
  - apply NoDup_fmap_2; [intros x y; lia|].
    apply (bool_decide_unpack _). vm_compute. exact I.
  - by rewrite length_fmap.
  - by rewrite !length_fmap.
  - apply Forall_fmap, Forall_forall. intros j _. cbn [compose]. lia.
  - rewrite <- app_assoc.
    erewrite (Store.instruction_at_ext _ h (C1 ++ C2) 17 10 16 _ (seq 0 10));
      [|done|done|done|repeat constructor].
    erewrite (Store.instruction_at_ext _ h C1 17 10 16 _ (seq 0 10));
      [done|done|done|done|repeat constructor].
  - erewrite (Store.instruction_at_ext _ h C1 17 10 16 _ (seq 0 10));
      [by eexists|done|done|done|repeat constructor].
Qed.

End Sharing.

(* ===================================================================== *)
(** ** Further properties: layouts of bounded size                        *)
(* ===================================================================== *)

(** The largest number of bytes an encoding under [l] can have, when there
    is one: integers, booleans and fixed-length byte arrays have their
    width, an option one byte more than its content, a record the sum of
    its fields; length-prefixed bytes and sequences have no bound. *)
Fixpoint max_span (l : Layout) : option nat :=
  match l with
  | LUInt w | LInt w => Some w
  | LBool => Some 1%nat
  | LBlob n => Some n
  | LBytes => None
  | LOption l' =>
      match max_span l' with
      | Some m => Some (1 + m)%nat
      | None => None
      end
  | LStruct fields =>
      (fix go (fs : list (string * Layout)) : option nat :=
         match fs with
         | [] => Some 0%nat
         | (_, lf) :: fs' =>
             match max_span lf, go fs' with
             | Some a, Some b => Some (a + b)%nat
             | _, _ => None
             end
         end) fields
  | LVec _ => None
  end.

Definition max_span_fields :=
  fix go (fs : list (string * Layout)) : option nat :=
    match fs with
    | [] => Some 0%nat
    | (_, lf) :: fs' =>
        match max_span lf, go fs' with
        | Some a, Some b => Some (a + b)%nat
        | _, _ => None
        end
    end.

Definition span_bounds (l : Layout) : Prop :=
  forall v bs m, max_span l = Some m -> serial l v = Ok bs ->
    (length bs <= m)%nat.

Lemma span_bounds_fields props fs :
  Forall (fun nl => span_bounds nl.2) fs ->
  forall bs m, max_span_fields fs = Some m -> serial_fields props fs = Ok bs ->
    (length bs <= m)%nat.
Proof.
  induction 1 as [|[name lf] fs Hlf _ IH]; intros bs m Hm Hs.
  - injection Hs as <-. simpl. lia.
  - cbn [max_span_fields serial_fields] in Hm, Hs.
    destruct (max_span lf) as [a|] eqn:Ea; [|done].
    destruct (max_span_fields fs) as [b|] eqn:Eb; [|done].
    injection Hm as <-.
    destruct (prop name props) as [fv|]; [|done].
    destruct (serial lf fv) as [b1|] eqn:E1; [|done].
    destruct (serial_fields props fs) as [b2|] eqn:E2; [|done].
    cbn [rbind] in Hs. injection Hs as <-. rewrite length_app.
    pose proof (Hlf fv b1 a Ea E1). pose proof (IH b2 b eq_refl eq_refl). lia.
Qed.

Lemma span_bounds_all (l : Layout) : span_bounds l.
Proof.
  induction l as [w|w| |n| |l IH|fs IH|l IH] using Layout_nested_ind;
    intros v bs m Hm Hs.
  - destruct v; try done. cbn [serial max_span] in *.
    destruct (decide _); [|done].
    assert (bs = le_bytes w z) as -> by congruence.
    rewrite length_le_bytes. injection Hm as <-. lia.
  - destruct v; try done. cbn [serial max_span] in *.
    destruct (decide _); [|done].
    assert (bs = le_bytes w (z mod width_range w)) as -> by congruence.
    rewrite length_le_bytes. injection Hm as <-. lia.
  - destruct v; try done. cbn [serial max_span] in *.
    injection Hs as <-. injection Hm as <-. simpl. lia.
  - destruct v; try done. cbn [serial max_span] in *.
    destruct (decide _) as [Hn|]; [|done].
    injection Hs as <-. injection Hm as <-. lia.
  - done.
  - cbn [max_span] in Hm. destruct (max_span l) as [a|] eqn:Ea; [|done].
    injection Hm as <-.
    assert (Hsome : forall bs, (let! bs' := serial l v in Ok (x01 :: bs')) = Ok bs ->
                      (length bs <= 1 + a)%nat).
    { intros bs1 H1. destruct (serial l v) as [bs'|] eqn:E; [|done].
      injection H1 as <-. pose proof (IH v bs' a Ea E). simpl. lia. }
    destruct v; try (by apply Hsome).
    cbn [serial] in Hs. injection Hs as <-. simpl. lia.
  - destruct v; try done. rewrite serial_struct in Hs.
    by apply (span_bounds_fields props fs IH).
  - done.
Qed.

Lemma max_span_layout (paramsLayout : Layout) :
  max_span (layout paramsLayout) =
  match max_span paramsLayout with
  | Some m => Some (m + 0)%nat
  | None => None
  end.
Proof. reflexivity. Qed.

Section Bounded.
Variable Fields : Type.
Variable paramsLayout : Layout.
Variable toEncodable : Fields -> Value.

Local Abbreviation layout := (layout paramsLayout).
Local Abbreviation encodable := (encodable Fields toEncodable).
Local Abbreviation AddLiquidity := (AddLiquidity Fields paramsLayout toEncodable).

(** X8. When the params layout bounds its encodings by [m] bytes and [m] is
    at most 1000, the scratch buffer of 1000 bytes has room for every
    record the layout accepts: the builder returns for each of them, with a
    payload of at most [1 + m] bytes. *)
Theorem AddLiquidity_bounded_layout_fits args accounts pid m :
  max_span paramsLayout = Some m ->
  (m <= 1000)%nat ->
  accepts layout (encodable args) = true ->
  exists ix, AddLiquidity args accounts pid = Ok ix /\
             (length (data ix) <= 1 + m)%nat.
Proof.
  intros Hm Hle Hacc.
  assert (Hml : max_span layout = Some (m + 0)%nat)
    by (by rewrite max_span_layout, Hm).
  destruct (roundtrips_all layout (encodable args) Hacc) as (bytes & Hs & _).
  pose proof (span_bounds_all layout (encodable args) bytes _ Hml Hs) as Hb.
  exists (assembled accounts pid bytes). split.
  - rewrite AddLiquidity_unfold.
    apply AddLiquidity_scratch_fits; [done|lia].
  - cbn [data assembled]. rewrite length_app.
    change (Buffer_from [1]) with [x01]. cbn [length]. lia.
Qed.
End Bounded.

(* ===================================================================== *)
(** ** The further properties at concrete inputs                          *)
(* ===================================================================== *)

(** The sample payload on other accounts and another program address. *)
Definition sample_instruction' : TransactionInstruction :=
  {| keys := AddLiquidity_keys accounts_without_quoteVault;
     programId := "Other"%string;
     data := Buffer_from [1] ++ sample_bytes |}.


Lemma AddLiquidity_payload_decodes_witness :
  accepts (layout AddLiquidityIxParams_layout) sample_encodable = true /\
  sample_build sample_args sample_accounts None = Ok sample_instruction /\
  decode (layout AddLiquidityIxParams_layout) (data sample_instruction) 1 =
    Ok (sample_encodable, (length (data sample_instruction) - 1)%nat).
Proof.
  split; [vm_compute; reflexivity|]. split; [vm_compute; reflexivity|].
  apply (proj1 (AddLiquidity_payload_decodes AddLiquidityIxParamsFields
                  AddLiquidityIxParams_layout AddLiquidityIxParams_toEncodable
                  sample_args sample_accounts None sample_instruction
                  ltac:(vm_compute; reflexivity) ltac:(vm_compute; reflexivity))).
Defined.

Lemma AddLiquidity_payload_prefix_free_witness :
  sample_build sample_args accounts_without_quoteVault (Some "Other"%string) =
    Ok sample_instruction' /\
  data sample_instruction `prefix_of` data sample_instruction' /\
  data sample_instruction = data sample_instruction'.
Proof.
  split; [vm_compute; reflexivity|]. split; [by exists []|].
  apply (AddLiquidity_payload_prefix_free AddLiquidityIxParamsFields
           AddLiquidityIxParams_layout AddLiquidityIxParams_toEncodable
           sample_args sample_accounts None sample_instruction
           sample_args accounts_without_quoteVault (Some "Other"%string)
           sample_instruction').
  - vm_compute; reflexivity.
  - vm_compute; reflexivity.
  - vm_compute; reflexivity.
  - vm_compute; reflexivity.
  - by exists [].
Defined.

Lemma AddLiquidity_results_disjoint_witness :
  length (footprint _
            (sample_build_store 0%nat 2%nat None
               (sample_build_store 0%nat 2%nat None sample_store).2).2
            20%nat) = 13%nat.
Proof.
  refine (proj1 (proj2 (AddLiquidity_results_disjoint AddLiquidityIxParamsFields
            AddLiquidityIxParams_layout AddLiquidityIxParams_toEncodable
            sample_store
            0%nat 2%nat (params sample_args) sample_accounts None
            0%nat 2%nat (params sample_args) sample_accounts None
            20%nat 38%nat _ _ _ _))).
  - exists 1%nat. repeat split; reflexivity.
  - exists 1%nat. repeat split; reflexivity.
  - vm_compute; reflexivity.
  - vm_compute; reflexivity.
Defined.

Lemma AddLiquidity_bounded_layout_fits_witness :
  max_span AddLiquidityIxParams_layout = Some 25%nat /\
  exists ix, sample_build sample_args sample_accounts None = Ok ix /\
             (length (data ix) <= 1 + 25)%nat.
Proof.
  split; [reflexivity|].
  apply (AddLiquidity_bounded_layout_fits AddLiquidityIxParamsFields
           AddLiquidityIxParams_layout AddLiquidityIxParams_toEncodable
           sample_args sample_accounts None 25%nat
           ltac:(reflexivity) ltac:(lia)).
  vm_compute; reflexivity.
Defined.
